(** * build_crosswalk.py: the opening-family canonicalization engine

    A shallow embedding of [scripts/build_crosswalk.py].  Python strings are
    sequences of Unicode code points, floats are IEEE binary64 numbers, the
    per-row dictionaries are finite maps, and the [re] patterns of the script
    are terms of a small regular-expression syntax run by a backtracking
    matcher that explores alternatives in Python's priority order. *)

From Stdlib Require Import ZArith NArith List String Ascii Bool Lia.
From Stdlib Require Import Floats.PrimFloat Floats.FloatOps Floats.SpecFloat.
From stdpp Require Import base gmap list strings sorting.

Set Warnings "-inexact-float".

Local Open Scope N_scope.

(** ** Strings *)

(** A Python [str] is a list of code points. *)
Abbreviation pystr := (list N).

(** [u "..."] is the [str] spelled by an ASCII literal of the script. *)
Fixpoint u (s : string) : pystr :=
  match s with
  | EmptyString => []
  | String a s' => N_of_ascii a :: u s'
  end.

Definition ch (a : ascii) : N := N_of_ascii a.

(** Truthiness of a [str]: [if s] / [not s]. *)
Definition truthy (s : pystr) : bool :=
  match s with [] => false | _ :: _ => true end.

Definition str_eqb (a b : pystr) : bool := bool_decide (a = b).

Fixpoint starts_with (pre s : pystr) : bool :=
  match pre, s with
  | [], _ => true
  | c :: pre', d :: s' => (c =? d) && starts_with pre' s'
  | _ :: _, [] => false
  end.

(** [sub in s] *)
Fixpoint str_contains (needle s : pystr) : bool :=
  starts_with needle s ||
  match s with
  | [] => false
  | _ :: s' => str_contains needle s'
  end.

(** [s.replace(old, new)] for a non-empty [old]: occurrences are replaced
    left to right without overlap.  [skip] counts the characters of the
    occurrence just replaced that are still to be passed over.  (With an
    empty [old] Python inserts [new] around every character; the script
    never does that and the case is rendered as the identity.) *)
Fixpoint replace_from (old new : pystr) (skip : nat) (s : pystr) : pystr :=
  match s with
  | [] => []
  | c :: s' =>
      match skip with
      | S k => replace_from old new k s'
      | O =>
          if starts_with old s
          then new ++ replace_from old new (Nat.pred (length old)) s'
          else c :: replace_from old new O s'
      end
  end.

Definition str_replace (old new s : pystr) : pystr :=
  match old with
  | [] => s
  | _ :: _ => replace_from old new O s
  end.

(** [s.strip(chars)] through a membership test on characters. *)
Fixpoint lstrip_by (p : N -> bool) (s : pystr) : pystr :=
  match s with
  | c :: s' => if p c then lstrip_by p s' else s
  | [] => []
  end.

Definition rstrip_by (p : N -> bool) (s : pystr) : pystr :=
  rev (lstrip_by p (rev s)).

Definition strip_by (p : N -> bool) (s : pystr) : pystr :=
  rstrip_by p (lstrip_by p s).

(** [s.split(sep)] on a single-character separator. *)
Fixpoint split_on (sep : N) (s : pystr) : list pystr :=
  match s with
  | [] => [[]]
  | c :: s' =>
      if c =? sep then [] :: split_on sep s'
      else match split_on sep s' with
           | w :: ws => (c :: w) :: ws
           | [] => [[c]]
           end
  end.

(** [sep.join(parts)] *)
Fixpoint str_join (sep : pystr) (parts : list pystr) : pystr :=
  match parts with
  | [] => []
  | [w] => w
  | w :: ws => w ++ sep ++ str_join sep ws
  end.

(** Lexicographic order on code points: the order [sorted] uses on [str]. *)
Fixpoint str_leb (a b : pystr) : bool :=
  match a, b with
  | [], _ => true
  | _ :: _, [] => false
  | c :: a', d :: b' => (c <? d) || ((c =? d) && str_leb a' b')
  end.

Definition str_le (a b : pystr) : Prop := str_leb a b = true.

#[global] Instance str_le_dec a b : Decision (str_le a b).
Proof. unfold str_le. apply _. Defined.

(** ** The Unicode character database

    [str.lower], [str.upper], [str.capitalize], [unicodedata.normalize] and
    the classes behind [\w], [\s], [\d] and [str.strip()] belong to the
    Python runtime.  The development is parametric in them. *)
Class UnicodeData := {
  str_lower : pystr -> pystr;
  str_upper : pystr -> pystr;
  str_capitalize : pystr -> pystr;
  nfkc : pystr -> pystr;
  nfkd : pystr -> pystr;
  isalnum : N -> bool;
  isspace : N -> bool;
  isdecimal : N -> bool
}.

(** What the database says on ASCII and on U+2019 (right single quotation
    mark), the only code points the worked examples contain. *)
Definition basic (c : N) : bool := (c <? 128) || (c =? 0x2019).

Definition in_range (lo hi c : N) : bool := (lo <=? c) && (c <=? hi).

Definition basic_lower (c : N) : N :=
  if in_range (ch "A") (ch "Z") c then c + 32 else c.

Definition basic_upper (c : N) : N :=
  if in_range (ch "a") (ch "z") c then c - 32 else c.

Definition basic_isdecimal (c : N) : bool := in_range (ch "0") (ch "9") c.

Definition basic_isalnum (c : N) : bool :=
  in_range (ch "a") (ch "z") c || in_range (ch "A") (ch "Z") c
  || basic_isdecimal c.

Definition basic_isspace (c : N) : bool :=
  in_range 9 13 c || in_range 28 32 c.

Definition basic_capitalize (s : pystr) : pystr :=
  match s with
  | [] => []
  | c :: s' => basic_upper c :: map basic_lower s'
  end.

Class UnicodeBasic (U : UnicodeData) : Prop := {
  lower_basic : forall s, forallb basic s = true ->
    str_lower s = map basic_lower s;
  upper_basic : forall s, forallb basic s = true ->
    str_upper s = map basic_upper s;
  nfkd_basic : forall s, forallb basic s = true -> nfkd s = s;
  isalnum_basic : forall c, basic c = true -> isalnum c = basic_isalnum c;
  isspace_basic : forall c, basic c = true -> isspace c = basic_isspace c;
  isdecimal_basic : forall c, basic c = true ->
    isdecimal c = basic_isdecimal c
}.

(** The database cut down to those code points; every other code point is
    left unchanged and belongs to no class. *)
Definition BasicLatin : UnicodeData := {|
  str_lower := map basic_lower;
  str_upper := map basic_upper;
  str_capitalize := basic_capitalize;
  nfkc := fun s => s;
  nfkd := fun s => s;
  isalnum := basic_isalnum;
  isspace := basic_isspace;
  isdecimal := basic_isdecimal
|}.

(** ** Regular expressions *)

Inductive cset_item :=
| CChar (c : N)            (* a literal character *)
| CRange (lo hi : N)       (* lo-hi *)
| CSpace                   (* \s *)
| CDigit.                  (* \d *)

Inductive regex :=
| Lit (s : pystr)                  (* a run of literal characters *)
| In_ (items : list cset_item)     (* [...] *)
| NotIn (items : list cset_item)   (* [^...] *)
| Bnd                              (* \b *)
| Cat (r1 r2 : regex)
| Alt (r1 r2 : regex)              (* r1|r2 *)
| Opt (r : regex)                  (* r? *)
| Star (r : regex)                 (* r* *)
| Plus (r : regex).                (* r+ *)

Declare Scope re_scope.
Delimit Scope re_scope with re.
Bind Scope re_scope with regex.
Notation "r1 ~~ r2" := (Cat r1 r2)
  (at level 41, right associativity) : re_scope.
Notation "r1 ||| r2" := (Alt r1 r2)
  (at level 50, left associativity) : re_scope.

(** Literal text of a pattern, [\s] and [\d]. *)
Definition lit (s : string) : regex := Lit (u s).
Definition sp : regex := In_ [CSpace].
Definition dg : regex := In_ [CDigit].

(** A position in the subject: the character before it, if any, and the
    text from it on. *)
Definition pos : Type := option N * pystr.

Section Matcher.
Context {U : UnicodeData}.

(** [\w] *)
Definition isword (c : N) : bool := isalnum c || (c =? ch "_").

Definition isword_at (o : option N) : bool :=
  match o with Some c => isword c | None => false end.

Definition at_boundary (p : pos) : bool :=
  xorb (isword_at (fst p)) (isword_at (head (snd p))).

Definition item_has (i : cset_item) (c : N) : bool :=
  match i with
  | CChar d => c =? d
  | CRange lo hi => in_range lo hi c
  | CSpace => isspace c
  | CDigit => isdecimal c
  end.

Definition set_has (items : list cset_item) (c : N) : bool :=
  existsb (fun i => item_has i c) items.

Fixpoint lit_match (l : pystr) (p : pos) : option pos :=
  match l with
  | [] => Some p
  | c :: l' =>
      match snd p with
      | d :: s' => if c =? d then lit_match l' (Some d, s') else None
      | [] => None
      end
  end.

Definition one_char (ok : N -> bool) (p : pos) : list pos :=
  match snd p with
  | c :: s' => if ok c then [(Some c, s')] else []
  | [] => []
  end.

(** Greedy repetition: after each further round of [step] (one that moved
    on in the subject) try again, and fall back to stopping here. *)
Fixpoint star_loop (step : pos -> list pos) (n : nat) (p : pos) : list pos :=
  match n with
  | O => [p]
  | S n' =>
      flat_map (fun q =>
                  if (length (snd q) <? length (snd p))%nat
                  then star_loop step n' q else [])
               (step p) ++ [p]
  end.

(** All the ways [r] matches at [p], as the positions where the match
    ends, in the order a backtracking matcher tries them. *)
Fixpoint exec (r : regex) (p : pos) : list pos :=
  match r with
  | Lit l => match lit_match l p with Some q => [q] | None => [] end
  | In_ items => one_char (set_has items) p
  | NotIn items => one_char (fun c => negb (set_has items c)) p
  | Bnd => if at_boundary p then [p] else []
  | Cat r1 r2 => flat_map (exec r2) (exec r1 p)
  | Alt r1 r2 => exec r1 p ++ exec r2 p
  | Opt r1 => exec r1 p ++ [p]
  | Star r1 => star_loop (exec r1) (length (snd p)) p
  | Plus r1 =>
      flat_map (star_loop (exec r1) (length (snd p))) (exec r1 p)
  end.

Definition matches_at (r : regex) (p : pos) : bool :=
  match exec r p with [] => false | _ :: _ => true end.

(** [bool(re.match(r, s))] *)
Definition re_match (r : regex) (s : pystr) : bool := matches_at r (None, s).

Fixpoint search_from (r : regex) (prev : option N) (s : pystr) : bool :=
  matches_at r (prev, s) ||
  match s with
  | [] => false
  | c :: s' => search_from r (Some c) s'
  end.

(** [bool(re.search(r, s))] *)
Definition re_search (r : regex) (s : pystr) : bool := search_from r None s.

(** [re.sub(r, repl, s)] for a plain replacement text: leftmost matches,
    each the first one the matcher finds at its position. *)
Fixpoint sub_from (r : regex) (repl : pystr) (skip : nat)
    (prev : option N) (s : pystr) : pystr :=
  match s with
  | [] =>
      match skip with
      | O => if matches_at r (prev, []) then repl else []
      | S _ => []
      end
  | c :: s' =>
      match skip with
      | S k => sub_from r repl k (Some c) s'
      | O =>
          match exec r (prev, s) with
          | q :: _ =>
              match (length s - length (snd q))%nat with
              | O => repl ++ c :: sub_from r repl O (Some c) s'
              | S k => repl ++ sub_from r repl k (Some c) s'
              end
          | [] => c :: sub_from r repl O (Some c) s'
          end
      end
  end.

Definition re_sub (r : regex) (repl s : pystr) : pystr :=
  sub_from r repl O None s.

(** [s.strip()] *)
Definition str_strip (s : pystr) : pystr := strip_by isspace s.

End Matcher.

(** ** Floats *)

(** [x < y] on floats *)
Definition flt (x y : float) : bool := PrimFloat.ltb x y.

Fixpoint dec_digits (fuel : nat) (n : N) (acc : pystr) : pystr :=
  match fuel with
  | O => acc
  | S f =>
      let acc' := (48 + n mod 10)%N :: acc in
      if (n / 10 =? 0)%N then acc' else dec_digits f (n / 10)%N acc'
  end.

Definition str_of_N (n : N) : pystr :=
  dec_digits (S (N.to_nat (N.log2 n))) n [].

(** [f"{x:.2f}"]: the exact binary value rounded to two decimals, ties to
    even. *)
Definition fmt_2f (x : float) : pystr :=
  match Prim2SF x with
  | S754_nan => u "nan"
  | S754_infinity s => if s then u "-inf" else u "inf"
  | S754_zero s => if s then u "-0.00" else u "0.00"
  | S754_finite s m e =>
      let num := match e with
                 | Zpos k => (Npos m * 2 ^ Npos k * 100)%N
                 | _ => (Npos m * 100)%N
                 end in
      let den := match e with Zneg k => (2 ^ Npos k)%N | _ => 1%N end in
      let q := (num / den)%N in
      let r := (num mod den)%N in
      let q' := if (den <? 2 * r)%N || ((2 * r =? den)%N && N.odd q)
                then (q + 1)%N else q in
      (if s then u "-" else [])
        ++ str_of_N (q' / 100)
        ++ u "."
        ++ [(48 + (q' mod 100) / 10)%N; (48 + (q' mod 100) mod 10)%N]
  end.

(** ** The script *)

(** A row of [read_rows]: field name to normalized text. *)
Abbreviation row := (gmap pystr pystr).

Section Script.
Context {U : UnicodeData}.

Local Open Scope re_scope.

(** [normalize_text] *)
Definition normalize_text (value : option pystr) : pystr :=
  let text := match value with Some v => v | None => [] end in
  str_strip (nfkc text).

(** [sniff_delimiter], on the header line read from the first file. *)
Definition sniff_delimiter (header_line : pystr) : pystr :=
  let count c := length (List.filter (fun d => (d =? c)%N) header_line) in
  if (count (ch ",") <? count (ch ";"))%nat then u ";" else u ",".

(** [acceptance_status] *)
Definition acceptance_status (name : pystr) : pystr :=
  let n := str_lower name in
  if str_contains (u "accepted") n then u "accepted"
  else if str_contains (u "declined") n then u "declined"
  else u "neutral".

(** [FAMILY_RULES], in the order of the script. *)
Definition FAMILY_RULES : list (regex * pystr) := [
  (Bnd ~~ lit "sicilian" ~~ Bnd, u "sicilian-defense");
  (Bnd ~~ lit "french" ~~ Bnd, u "french-defense");
  (Bnd ~~ lit "caro" ~~ Opt (In_ [CChar (ch "-"); CSpace]) ~~ lit "kann"
     ~~ Bnd, u "caro-kann-defense");
  (Bnd ~~ lit "scandinavian" ~~ Bnd
     ||| Bnd ~~ lit "center" ~~ Plus sp ~~ lit "counter" ~~ Bnd,
   u "scandinavian-defense");
  (Bnd ~~ lit "italian" ~~ Bnd ||| Bnd ~~ lit "giuoco" ~~ Bnd,
   u "italian-game");
  (Bnd ~~ lit "ruy" ~~ Star sp ~~ lit "lopez" ~~ Bnd
     ||| Bnd ~~ lit "esp" ~~ In_ [CChar (ch "a"); CChar 0xE1] ~~ lit "nol"
         ~~ Opt (In_ [CChar (ch "a")]) ~~ Bnd,
   u "ruy-lopez");
  (Bnd ~~ lit "vienna" ~~ Bnd, u "vienna-game");
  (Bnd ~~ lit "scotch" ~~ Bnd, u "scotch-game");
  (Bnd ~~ lit "two" ~~ Plus sp ~~ lit "knights" ~~ Bnd,
   u "two-knights-defense");
  (Bnd ~~ lit "four" ~~ Plus sp ~~ lit "knights" ~~ Bnd,
   u "four-knights-game");
  (Bnd ~~ lit "philidor" ~~ Bnd, u "philidor-defense");
  (Bnd ~~ lit "petrov" ~~ Bnd ||| Bnd ~~ lit "russian" ~~ Bnd,
   u "petrov-defense");
  (Bnd ~~ lit "pirc" ~~ Bnd
     ||| Bnd ~~ lit "modern" ~~ Plus sp ~~ lit "defense" ~~ Bnd
     ||| Bnd ~~ lit "modern" ~~ Bnd,
   u "pirc-modern");
  (Bnd ~~ lit "alekhin" ~~ Opt (lit "e") ~~ Bnd
     ||| Bnd ~~ lit "alekhin" ~~ Opt (lit "e") ~~ Opt (lit "'") ~~ lit "s"
         ~~ Bnd
     ||| Bnd ~~ lit "alekhine" ~~ Bnd
     ||| Bnd ~~ lit "alekhine" ~~ Bnd
     ||| Bnd ~~ lit "alekhine" ~~ Bnd
     ||| Bnd ~~ lit "alekhine" ~~ Bnd,
   u "alekhine-defense");
  (Bnd ~~ lit "dutch" ~~ Bnd, u "dutch-defense");
  (Bnd ~~ lit "benoni" ~~ Bnd, u "benoni-defense");
  (Bnd ~~ lit "old" ~~ Plus sp ~~ lit "benoni" ~~ Bnd, u "benoni-defense");
  (Bnd ~~ lit "modern" ~~ Plus sp ~~ lit "benoni" ~~ Bnd,
   u "benoni-defense");
  (Bnd ~~ lit "benko" ~~ Bnd ||| Bnd ~~ lit "volga" ~~ Bnd,
   u "benko-gambit");
  (Bnd ~~ lit "gr" ~~ In_ [CChar 0xFC; CChar (ch "u")] ~~ lit "nfeld"
     ~~ Bnd, u "grunfeld-defense");
  (Bnd ~~ lit "nimzo" ~~ Opt (In_ [CChar (ch "-"); CSpace]) ~~ lit "indian"
     ~~ Bnd, u "nimzo-indian-defense");
  (Bnd ~~ lit "bogo" ~~ Opt (In_ [CChar (ch "-"); CSpace]) ~~ lit "indian"
     ~~ Bnd, u "bogo-indian-defense");
  (Bnd ~~ lit "queen" ~~ Opt (lit "'") ~~ Opt (lit "s") ~~ Plus sp
     ~~ lit "indian" ~~ Bnd, u "queens-indian-defense");
  (Bnd ~~ lit "king" ~~ Opt (lit "'") ~~ Opt (lit "s")
     ~~ Opt (In_ [CChar (ch "-"); CSpace]) ~~ lit "indian" ~~ Bnd,
   u "kings-indian-defense");
  (Bnd ~~ lit "slav" ~~ Bnd, u "slav-defense");
  (Bnd ~~ lit "semi" ~~ Opt (In_ [CChar (ch "-"); CSpace]) ~~ lit "slav"
     ~~ Bnd, u "semi-slav-defense");
  (Bnd ~~ lit "queen" ~~ Opt (lit "'") ~~ Opt (lit "s") ~~ Plus sp
     ~~ lit "gambit" ~~ Bnd, u "queens-gambit");
  (Bnd ~~ lit "catalan" ~~ Bnd, u "catalan-opening");
  (Bnd ~~ lit "english" ~~ Bnd, u "english-opening");
  (Bnd ~~ lit "r" ~~ In_ [CChar 0xE9; CChar (ch "e")] ~~ lit "ti" ~~ Bnd
     ||| Bnd ~~ lit "reti" ~~ Bnd, u "reti-opening");
  (Bnd ~~ lit "bird" ~~ Opt (lit "'") ~~ Opt (lit "s") ~~ Bnd,
   u "birds-opening");
  (Bnd ~~ lit "london" ~~ Bnd, u "london-system");
  (Bnd ~~ lit "colle" ~~ Bnd, u "colle-system");
  (Bnd ~~ lit "trompowsky" ~~ Bnd, u "trompowsky-attack");
  (Bnd ~~ lit "veresov" ~~ Bnd ||| Bnd ~~ lit "jobava" ~~ Bnd,
   u "veresov-opening");
  (Bnd ~~ lit "king" ~~ Opt (lit "'") ~~ Opt (lit "s") ~~ Plus sp
     ~~ lit "gambit" ~~ Bnd, u "kings-gambit");
  (Bnd ~~ lit "center" ~~ Plus sp ~~ lit "game" ~~ Bnd, u "center-game");
  (Bnd ~~ lit "scandinavian" ~~ Bnd, u "scandinavian-defense")
].

(** [FAMILY_SYNONYMS], in insertion order. *)
Definition FAMILY_SYNONYMS : list (pystr * pystr) := [
  (u "king s", u "kings");
  (u "queen s", u "queens");
  (u "bird s", u "birds");
  (u "ruy l pez", u "ruy lopez");
  (u "gr nfeld", u "grunfeld")
].

Definition apply_synonyms (n : pystr) : pystr :=
  fold_left (fun n kv => str_replace (fst kv) (snd kv) n) FAMILY_SYNONYMS n.

(** The [for pattern, fam in FAMILY_RULES] loop: the family of the first
    rule whose pattern is found in [n]. *)
Fixpoint first_rule (rules : list (regex * pystr)) (n : pystr)
    : option pystr :=
  match rules with
  | [] => None
  | (pattern, fam) :: rest =>
      if re_search pattern n then Some fam else first_rule rest n
  end.

Definition RE_DUTCH : regex := Bnd ~~ lit "dutch" ~~ Bnd.
Definition RE_STAUNTON : regex := Bnd ~~ lit "staunton" ~~ Bnd.

(** The ECO band fallbacks, one [if] of the script after the other. *)
Definition eco_fallback (eco : pystr) : pystr * float :=
  if re_match (lit "B" ~~ In_ [CRange (ch "2") (ch "9")] ~~ dg) eco
  then (u "sicilian-defense", 0.90%float)
  else if re_match (lit "C0" ~~ dg ||| lit "C1" ~~ dg) eco
  then (u "french-defense", 0.90%float)
  else if re_match (lit "B1" ~~ dg) eco
  then (u "caro-kann-defense", 0.85%float)
  else if re_match
            (lit "B0" ~~ In_ [CChar (ch "6"); CRange (ch "7") (ch "9")]) eco
  then (u "pirc-modern", 0.80%float)
  else if re_match (lit "B0" ~~ In_ [CRange (ch "0") (ch "5")]) eco
  then (u "open-games", 0.80%float)
  else if re_match (lit "A8" ~~ dg ||| lit "A9" ~~ dg) eco
  then (u "dutch-defense", 0.90%float)
  else if re_match
            (lit "A5" ~~ In_ [CRange (ch "6") (ch "9")] ||| lit "A7" ~~ dg)
            eco
  then (u "benoni-defense", 0.85%float)
  else if re_match
            (lit "D0" ~~ dg ||| lit "D3" ~~ dg ||| lit "D4" ~~ dg
             ||| lit "D6" ~~ dg) eco
  then (u "queens-gambit", 0.85%float)
  else if re_match (lit "D1" ~~ dg) eco
  then (u "slav-defense", 0.85%float)
  else if re_match (lit "D2" ~~ dg ||| lit "D5" ~~ dg) eco
  then (u "queens-gambit", 0.80%float)
  else if re_match (lit "E0" ~~ In_ [CRange (ch "0") (ch "9")]) eco
  then (u "catalan-opening", 0.80%float)
  else if re_match (lit "E2" ~~ dg) eco
  then (u "nimzo-indian-defense", 0.85%float)
  else if re_match (lit "E3" ~~ dg) eco
  then (u "queens-indian-defense", 0.85%float)
  else if re_match (lit "E6" ~~ dg) eco
  then (u "kings-indian-defense", 0.85%float)
  else if re_match (lit "D7" ~~ dg ||| lit "D8" ~~ dg ||| lit "D9" ~~ dg) eco
  then (u "grunfeld-defense", 0.85%float)
  else ([], 0.0%float).

(** The same bands as an ordered table of (pattern, result) pairs, read
    with the first matching band winning. *)
Definition ECO_BANDS : list (regex * (pystr * float)) := [
  (lit "B" ~~ In_ [CRange (ch "2") (ch "9")] ~~ dg,
   (u "sicilian-defense", 0.90%float));
  (lit "C0" ~~ dg ||| lit "C1" ~~ dg, (u "french-defense", 0.90%float));
  (lit "B1" ~~ dg, (u "caro-kann-defense", 0.85%float));
  (lit "B0" ~~ In_ [CChar (ch "6"); CRange (ch "7") (ch "9")],
   (u "pirc-modern", 0.80%float));
  (lit "B0" ~~ In_ [CRange (ch "0") (ch "5")], (u "open-games", 0.80%float));
  (lit "A8" ~~ dg ||| lit "A9" ~~ dg, (u "dutch-defense", 0.90%float));
  (lit "A5" ~~ In_ [CRange (ch "6") (ch "9")] ||| lit "A7" ~~ dg,
   (u "benoni-defense", 0.85%float));
  (lit "D0" ~~ dg ||| lit "D3" ~~ dg ||| lit "D4" ~~ dg ||| lit "D6" ~~ dg,
   (u "queens-gambit", 0.85%float));
  (lit "D1" ~~ dg, (u "slav-defense", 0.85%float));
  (lit "D2" ~~ dg ||| lit "D5" ~~ dg, (u "queens-gambit", 0.80%float));
  (lit "E0" ~~ In_ [CRange (ch "0") (ch "9")],
   (u "catalan-opening", 0.80%float));
  (lit "E2" ~~ dg, (u "nimzo-indian-defense", 0.85%float));
  (lit "E3" ~~ dg, (u "queens-indian-defense", 0.85%float));
  (lit "E6" ~~ dg, (u "kings-indian-defense", 0.85%float));
  (lit "D7" ~~ dg ||| lit "D8" ~~ dg ||| lit "D9" ~~ dg,
   (u "grunfeld-defense", 0.85%float))
].

Fixpoint first_band (bands : list (regex * (pystr * float))) (eco : pystr)
    : pystr * float :=
  match bands with
  | [] => ([], 0.0%float)
  | (pattern, result) :: rest =>
      if re_match pattern eco then result else first_band rest eco
  end.

(** [canonical_family].  Its callers pass a [str] for [eco_code], on which
    [eco_code or ""] is the identity. *)
Definition canonical_family (name eco_code : pystr) : pystr * float :=
  let n := apply_synonyms (str_lower name) in
  match first_rule FAMILY_RULES n with
  | Some fam => (fam, 0.99%float)
  | None =>
      if re_search RE_DUTCH n && re_search RE_STAUNTON n
      then (u "dutch-defense", 0.95%float)
      else eco_fallback (str_strip (str_upper eco_code))
  end.

(** *** Rows *)

(** [read_rows], past the file system: every file comes as its base name
    and the dictionaries [csv.DictReader] yields for it (a missing cell is
    [None]), the files in sorted path order. *)
Definition read_rows
    (files : list (pystr * list (gmap pystr (option pystr)))) : list row :=
  flat_map (fun f =>
              map (fun r => <[u "__source_file" := fst f]>
                              (normalize_text <$> r))
                  (snd f))
           files.

(** [r.get(k) or rest] *)
Definition get_or (r : row) (k : string) (rest : pystr) : pystr :=
  match r !! u k with
  | Some v => if truthy v then v else rest
  | None => rest
  end.

Definition row_name (r : row) : pystr :=
  get_or r "Name" (get_or r "name" (get_or r "opening"
    (get_or r "alias_name" []))).

Definition row_eco (r : row) : pystr :=
  get_or r "eco" (get_or r "ECO" (get_or r "eco_code" [])).

Definition row_slug (r : row) : pystr :=
  get_or r "slug" (get_or r "alias_slug" []).

Definition row_hint (r : row) : pystr :=
  get_or r "family name" (get_or r "family_name" (get_or r "family" [])).

(** [fam_hint and fam_hint.upper() != "#N/A"] *)
Definition hint_applies (fam_hint : pystr) : bool :=
  truthy fam_hint && negb (str_eqb (str_upper fam_hint) (u "#N/A")).

(** The key the loop of [main] derives from an applicable hint. *)
Definition slugify_hint (fam_hint : pystr) : pystr :=
  let fam_norm := nfkd fam_hint in
  let fam_norm :=
    str_replace [0xB4] (u "'")
      (str_replace (u "`") (u "'")
         (str_replace [0x2019] (u "'") fam_norm)) in
  let fam_norm := re_sub (lit "'s" ~~ Bnd) (u "s") fam_norm in
  let fam_norm :=
    re_sub (Plus (NotIn [CRange (ch "A") (ch "Z"); CRange (ch "a") (ch "z");
                         CRange (ch "0") (ch "9")]))
           (u "-") (str_strip fam_norm) in
  let fam_key := strip_by (fun c => (c =? ch "-")%N) (str_lower fam_norm) in
  let fam_key := str_replace (u "-s-") (u "s-") fam_key in
  let fam_key := str_replace (u "-s-") (u "s-") fam_key in
  str_replace (u "-gambit-gambit") (u "-gambit") fam_key.

(** [fam_key, conf] as the loop body has them after the two tiers. *)
Definition resolve (name eco fam_hint : pystr) : pystr * float :=
  let '(fam_key, conf) :=
    if hint_applies fam_hint then (slugify_hint fam_hint, 0.90%float)
    else ([], 0.0%float) in
  if negb (truthy fam_key) then canonical_family name eco
  else (fam_key, conf).

(** The two values for the row [r]. *)
Definition row_resolve (r : row) : pystr * float :=
  resolve (row_name r) (row_eco r) (row_hint r).

Definition dutch_staunton_notes (name : pystr) : pystr :=
  if re_search RE_DUTCH (str_lower name)
     && re_search RE_STAUNTON (str_lower name)
  then u "inferred staunton under dutch"
  else [].

(** [not fam_key or conf < 0.85] *)
Definition review_needed (fam_key : pystr) (conf : float) : bool :=
  negb (truthy fam_key) || flt conf 0.85%float.

Record crosswalk_row := {
  cw_source : pystr;
  cw_alias_name : pystr;
  cw_alias_slug : pystr;
  cw_eco_code : pystr;
  cw_canonical_family_key : pystr;
  cw_acceptance_status : pystr;
  cw_confidence : pystr;
  cw_needs_review : pystr;
  cw_notes : pystr
}.

Record review_row := {
  rv_alias_name : pystr;
  rv_alias_slug : pystr;
  rv_eco_code : pystr;
  rv_reason : pystr
}.

Definition crosswalk_of (r : row) : crosswalk_row :=
  let name := row_name r in
  let eco := row_eco r in
  let '(fam_key, conf) := row_resolve r in
  {| cw_source := match r !! u "__source_file" with
                  | Some v => v
                  | None => u "split"
                  end;
     cw_alias_name := name;
     cw_alias_slug := row_slug r;
     cw_eco_code := eco;
     cw_canonical_family_key := fam_key;
     cw_acceptance_status := acceptance_status name;
     cw_confidence := fmt_2f conf;
     cw_needs_review :=
       if review_needed fam_key conf then u "TRUE" else u "FALSE";
     cw_notes := dutch_staunton_notes name |}.

Definition review_of (r : row) : review_row :=
  {| rv_alias_name := row_name r;
     rv_alias_slug := row_slug r;
     rv_eco_code := row_eco r;
     rv_reason := u "low_confidence_or_unmatched" |}.

(** *** The loop of [main] *)

Record tables := {
  crosswalk : list crosswalk_row;
  review : list review_row;
  families : gmap pystr nat
}.

Definition no_tables : tables :=
  {| crosswalk := []; review := []; families := ∅ |}.

(** [families[fam_key] = families.get(fam_key, 0) + 1] *)
Definition bump (fam_key : pystr) (fams : gmap pystr nat) : gmap pystr nat :=
  <[fam_key := (default 0 (fams !! fam_key) + 1)%nat]> fams.

(** One turn of [for r in rows]. *)
Definition step (t : tables) (r : row) : tables :=
  let '(fam_key, conf) := row_resolve r in
  {| crosswalk := crosswalk t ++ [crosswalk_of r];
     families := if truthy fam_key then bump fam_key (families t)
                 else families t;
     review := if review_needed fam_key conf
               then review t ++ [review_of r]
               else review t |}.

Definition main_loop (rows : list row) : tables :=
  fold_left step rows no_tables.

(** The data rows of FamilyCanonical.csv (the header row comes first in
    the file). *)
Definition family_rows (fams : gmap pystr nat) : list (list pystr) :=
  map (fun key =>
         [key;
          str_join (u " ") (map str_capitalize (split_on (ch "-") key));
          [];
          u "seeded from alias mapping frequency"])
      (merge_sort str_le (map_to_list fams).*1).

(** What [main] writes: the rows of FamilyCrosswalk.csv, AliasReview.csv
    and FamilyCanonical.csv. *)
Definition main (files : list (pystr * list (gmap pystr (option pystr))))
    : list crosswalk_row * list review_row * list (list pystr) :=
  let t := main_loop (read_rows files) in
  (crosswalk t, review t, family_rows (families t)).

End Script.

(** [pos_ok P p]: the characters the matcher can look at from [p] satisfy
    [P]. *)
Definition pos_ok (P : N -> Prop) (p : pos) : Prop :=
  match fst p with Some c => P c | None => True end /\ Forall P (snd p).

Definition is_basic (c : N) : Prop := basic c = true.

(** ** Vocabulary of the statements *)

Section Vocabulary.
Context {U : UnicodeData}.

(** Whether the loop flags the row [r]. *)
Definition row_needs_review (r : row) : bool :=
  review_needed (fst (row_resolve r)) (snd (row_resolve r)).

(** The character before a position reached by reading [pre] past a
    position whose previous character was [prev]. *)
Definition prev_after (prev : option N) (pre : pystr) : option N :=
  match last pre with Some c => Some c | None => prev end.

(** [w] occurs in [s] as a whole word: no word character right before it
    and none right after it. *)
Definition whole_word (w s : pystr) : Prop :=
  exists pre post,
    s = pre ++ w ++ post /\
    isword_at (last pre) = false /\ isword_at (head post) = false.

End Vocabulary.

(** The number of crosswalk rows carrying the key [k]. *)
Definition key_count (k : pystr) (cws : list crosswalk_row) : nat :=
  length (filter (fun c => cw_canonical_family_key c = k) cws).

(** What the mapping [families] holds for a key, given the crosswalk rows
    appended so far. *)
Definition tally (k : pystr) (cws : list crosswalk_row) : option nat :=
  if truthy k
  then match key_count k cws with O => None | S n => Some (S n) end
  else None.

(** The rows of a family table whose first column is [k]. *)
Definition rows_for (k : pystr) (table : list (list pystr))
    : list (list pystr) :=
  filter (fun cells => head cells = Some k) table.

(** The patterns of the rules for "semi-slav-defense" and for the
    "modern benoni" spelling of "benoni-defense". *)
Definition RE_SEMI_SLAV : regex :=
  (Bnd ~~ lit "semi" ~~ Opt (In_ [CChar (ch "-"); CSpace]) ~~ lit "slav"
     ~~ Bnd)%re.

Definition RE_MODERN_BENONI : regex :=
  (Bnd ~~ lit "modern" ~~ Plus sp ~~ lit "benoni" ~~ Bnd)%re.

(** Rows used as worked examples. *)
Definition row_unclassifiable : row :=
  <[u "name" := u "random unclassifiable string"]>
    (<[u "eco" := u "Z99"]> ∅).

Definition row_b44 : row :=
  <[u "name" := []]> (<[u "eco" := u "B44"]> (<[u "family" := []]> ∅)).

Definition row_b06 : row := <[u "ECO" := u "B06"]> ∅.

Definition row_hinted : row :=
  <[u "name" := u "Dutch Defense: Staunton Gambit"]>
    (<[u "eco" := u "A83"]> (<[u "family" := u "Queen's Gambit"]> ∅)).

Definition curly_queens_gambit : pystr :=
  u "Queen" ++ [0x2019%N] ++ u "s Gambit".

(** The tier confidences of a resolved key. *)
Definition TIER_CONFIDENCES : list float :=
  [0.99%float; 0.95%float; 0.90%float; 0.85%float; 0.80%float].

(** ** Vocabulary of the further properties *)

(** [needle] occurs in [s]. *)
Definition is_substring (needle s : pystr) : Prop :=
  exists pre post, s = pre ++ needle ++ post.

Section Trimmed.
Context {U : UnicodeData}.

(** Neither the first nor the last character of [s] is whitespace. *)
Definition trimmed (s : pystr) : Prop :=
  (forall c, head s = Some c -> isspace c = false) /\
  (forall c, last s = Some c -> isspace c = false).

End Trimmed.

(** A file used as a worked example: one row whose name has blanks
    around it. *)
Definition raw_ruy : gmap pystr (option pystr) :=
  <[u "name" := Some (u "  Ruy Lopez ")]> ∅.

Definition files_example : list (pystr * list (gmap pystr (option pystr))) :=
  [(u "a.csv", [raw_ruy])].

(** [A-Za-z0-9] *)
Definition ascii_alnum (c : N) : bool :=
  in_range (ch "A") (ch "Z") c || in_range (ch "a") (ch "z") c
  || in_range (ch "0") (ch "9") c.

(** The pattern [[^A-Za-z0-9]+] of the slug computation. *)
Definition RE_NON_ALNUM_RUN : regex :=
  Plus (NotIn [CRange (ch "A") (ch "Z"); CRange (ch "a") (ch "z");
               CRange (ch "0") (ch "9")]).

(** Every maximal run of characters outside [A-Za-z0-9] becomes one
    hyphen; [in_run] tells that the hyphen of the current run is already
    out. *)
Fixpoint hyphenate (in_run : bool) (s : pystr) : pystr :=
  match s with
  | [] => []
  | c :: t =>
      if ascii_alnum c then c :: hyphenate false t
      else if in_run then hyphenate true t
      else ch "-" :: hyphenate true t
  end.

(** [a-z0-9] *)
Definition lower_alnum (c : N) : bool :=
  in_range (ch "a") (ch "z") c || in_range (ch "0") (ch "9") c.

(** The words of [[a-z0-9]+(-[a-z0-9]+)*], read from the left;
    [after_hyphen] holds at the start and right after a hyphen. *)
Fixpoint slug_from (after_hyphen : bool) (s : pystr) : bool :=
  match s with
  | [] => negb after_hyphen
  | c :: t =>
      if (c =? ch "-")%N then negb after_hyphen && slug_from true t
      else lower_alnum c && slug_from false t
  end.

(** A family key: empty, or lower-case alphanumeric words joined by single
    hyphens. *)
Definition key_shaped (s : pystr) : Prop :=
  s = [] \/ slug_from true s = true.

(** Lower-case alphanumerics and hyphens, no two hyphens in a row;
    [after_hyphen] as in [slug_from].  Unlike [slug_from], a hyphen may
    come last. *)
Fixpoint single_hyphens (after_hyphen : bool) (s : pystr) : bool :=
  match s with
  | [] => true
  | c :: t =>
      if (c =? ch "-")%N then negb after_hyphen && single_hyphens true t
      else lower_alnum c && single_hyphens false t
  end.

(** Where reading [w] leaves [slug_from]: [None] when [w] cannot occur in
    a key there. *)
Fixpoint slug_state (after_hyphen : bool) (w : pystr) : option bool :=
  match w with
  | [] => Some after_hyphen
  | c :: t =>
      if (c =? ch "-")%N
      then if after_hyphen then None else slug_state true t
      else if lower_alnum c then slug_state false t else None
  end.

Definition is_hyphen (c : N) : bool := (c =? ch "-")%N.

Definition row_messy_hint : row :=
  <[u "family" := u "King's -- Indian  (E6x)!"]> ∅.

Definition row_punct_hint : row :=
  <[u "name" := u "French Defense"]> (<[u "family" := u "???"]> ∅).

(** [FAMILY_RULES] without its 17th, 18th and 38th rule (the patterns
    "old benoni", "modern benoni" and the second "scandinavian"). *)
Definition FAMILY_RULES_LIVE : list (regex * pystr) :=
  firstn 16 FAMILY_RULES ++ skipn 18 (firstn 37 FAMILY_RULES).

(** The sum of the counts the mapping [families] holds. *)
Definition total_count (fams : gmap pystr nat) : nat :=
  map_fold (fun _ n acc => (n + acc)%nat) 0%nat fams.


(** The plain apostrophe for the three quote glyphs the slug computation
    maps to it (U+2019, the grave accent, U+00B4); any other character
    unchanged. *)
Definition straight_quote (c : N) : N :=
  if (c =? 0x2019)%N || (c =? ch "`")%N || (c =? 0xB4)%N then ch "'" else c.

(** * Properties *)

Ltac float_discr H :=
  apply (f_equal Prim2SF) in H; vm_compute in H; discriminate H.

(** ** The classifier *)

Section Classifier.
Context {U : UnicodeData}.

Lemma first_rule_in rules n fam :
  first_rule rules n = Some fam -> exists pattern, In (pattern, fam) rules.
Proof.
  induction rules as [|[pattern fam'] rest IH]; simpl; [discriminate|].
  destruct (re_search pattern n).
  - intros [= <-]. exists pattern. now left.
  - intros H. destruct (IH H) as [p Hp]. exists p. now right.
Qed.

(** First match wins: the loop returns the family of the rule at the
    least index whose pattern is found. *)
Lemma first_rule_first rules n fam :
  first_rule rules n = Some fam <->
  exists before pattern after,
    rules = before ++ (pattern, fam) :: after /\
    re_search pattern n = true /\
    Forall (fun rule => re_search (fst rule) n = false) before.
Proof.
  induction rules as [|[pattern fam'] rest IH]; simpl.
  - split; [discriminate|]. intros (b & p & a & H & _).
    destruct b; discriminate.
  - destruct (re_search pattern n) eqn:E.
    + split.
      * intros [= <-]. exists [], pattern, rest. auto.
      * intros ([|[p0 f0] b] & p & a & H & Hp & Hb).
        -- simpl in H. congruence.
        -- simpl in H. injection H as -> -> ->.
           apply Forall_cons_1 in Hb as [Hb _]. simpl in Hb. congruence.
    + rewrite IH. split.
      * intros (b & p & a & -> & Hp & Hb).
        exists ((pattern, fam') :: b), p, a. repeat split; auto.
      * intros ([|[p0 f0] b] & p & a & H & Hp & Hb).
        -- simpl in H. injection H as -> -> ->. congruence.
        -- simpl in H. injection H as -> -> ->.
           apply Forall_cons_1 in Hb as [_ Hb]. exists b, p, a. auto.
Qed.

Lemma first_rule_none rules n pattern fam :
  first_rule rules n = None -> In (pattern, fam) rules ->
  re_search pattern n = false.
Proof.
  induction rules as [|[p f] rest IH]; simpl; [tauto|].
  destruct (re_search p n) eqn:E; [discriminate|].
  intros H [[= <- <-]|Hin]; auto.
Qed.

(** When no rule of the list matched, the word "dutch" is not in the text:
    the list has a rule for it. *)
Lemma no_rule_no_dutch n :
  first_rule FAMILY_RULES n = None -> re_search RE_DUTCH n = false.
Proof.
  intros H. apply (first_rule_none _ _ _ (u "dutch-defense") H).
  unfold FAMILY_RULES, RE_DUTCH. do 14 right. now left.
Qed.

Lemma family_rules_named :
  Forall (fun rule => truthy (snd rule) = true) FAMILY_RULES.
Proof. repeat constructor. Qed.

Lemma canonical_family_cases name eco_code :
  let n := apply_synonyms (str_lower name) in
  (exists fam, first_rule FAMILY_RULES n = Some fam /\
               canonical_family name eco_code = (fam, 0.99%float)) \/
  (first_rule FAMILY_RULES n = None /\
   canonical_family name eco_code
   = eco_fallback (str_strip (str_upper eco_code))).
Proof.
  intros n. unfold canonical_family. fold n.
  destruct (first_rule FAMILY_RULES n) as [fam|] eqn:E.
  - left. eauto.
  - right. rewrite (no_rule_no_dutch _ E). auto.
Qed.

End Classifier.

(** ** Confidence and the review flag *)

Section Resolution.
Context {U : UnicodeData}.

Lemma eco_fallback_table eco : eco_fallback eco = first_band ECO_BANDS eco.
Proof. reflexivity. Qed.

Lemma eco_fallback_conf eco :
  eco_fallback eco = ([], 0.0%float) \/
  (truthy (fst (eco_fallback eco)) = true /\
   In (snd (eco_fallback eco)) [0.90%float; 0.85%float; 0.80%float]).
Proof.
  unfold eco_fallback.
  repeat match goal with
         | |- context [if ?b then _ else _] => destruct b
         end;
    solve [ now left | right; simpl; tauto ].
Qed.

Lemma canonical_family_conf name eco :
  canonical_family name eco = ([], 0.0%float) \/
  (truthy (fst (canonical_family name eco)) = true /\
   In (snd (canonical_family name eco))
      [0.99%float; 0.90%float; 0.85%float; 0.80%float]).
Proof.
  destruct (canonical_family_cases name eco) as [(fam & Hf & ->)|[_ ->]].
  - right. simpl. split; [|tauto].
    apply first_rule_in in Hf as [p Hp].
    pose proof family_rules_named as HF. rewrite Forall_forall in HF.
    apply (HF (p, fam)), list_elem_of_In, Hp.
  - destruct (eco_fallback_conf (str_strip (str_upper eco))) as [->|[H1 H2]].
    + now left.
    + right. split; [exact H1|]. simpl in *. tauto.
Qed.

Lemma resolve_hint name eco hint :
  hint_applies hint = true -> truthy (slugify_hint hint) = true ->
  resolve name eco hint = (slugify_hint hint, 0.90%float).
Proof. unfold resolve. intros -> H. now rewrite H. Qed.

Lemma resolve_no_hint name eco hint :
  hint_applies hint && truthy (slugify_hint hint) = false ->
  resolve name eco hint = canonical_family name eco.
Proof.
  unfold resolve. destruct (hint_applies hint); simpl; [|reflexivity].
  now intros ->.
Qed.

Lemma resolve_conf name eco hint :
  resolve name eco hint = ([], 0.0%float) \/
  (truthy (fst (resolve name eco hint)) = true /\
   In (snd (resolve name eco hint)) TIER_CONFIDENCES).
Proof.
  destruct (hint_applies hint && truthy (slugify_hint hint)) eqn:E.
  - apply andb_true_iff in E as [E1 E2]. rewrite resolve_hint by assumption.
    right. split; [exact E2|]. simpl. tauto.
  - rewrite resolve_no_hint by assumption.
    destruct (canonical_family_conf name eco) as [->|[H1 H2]].
    + now left.
    + right. split; [exact H1|]. simpl in *. tauto.
Qed.

Lemma truthy_nil (s : pystr) : truthy s = false <-> s = [].
Proof. destruct s; simpl; split; congruence. Qed.

Lemma truthy_cons (s : pystr) : truthy s = true <-> s <> [].
Proof. destruct s; simpl; split; congruence. Qed.

Lemma tier_confidence_nonzero c : In c TIER_CONFIDENCES -> c <> 0.0%float.
Proof.
  simpl. intros [<-|[<-|[<-|[<-|[<-|[]]]]]] H; float_discr H.
Qed.

End Resolution.

(** ** The matcher looks only at the subject *)

Section MatcherFacts.
Context {U : UnicodeData}.
Variable P : N -> Prop.

Lemma lit_match_ok l p q : pos_ok P p -> lit_match l p = Some q -> pos_ok P q.
Proof.
  revert p. induction l as [|c l IH]; intros [prev s] Hp; simpl.
  - now intros [= <-].
  - destruct s as [|d s]; [discriminate|].
    destruct (c =? d)%N; [|discriminate].
    apply IH. destruct Hp as [_ Hs]. simpl in Hs.
    apply Forall_cons in Hs as [Hd Hs]. now split.
Qed.

Lemma one_char_ok ok p q : pos_ok P p -> In q (one_char ok p) -> pos_ok P q.
Proof.
  destruct p as [prev [|c s]]; unfold one_char; simpl; [intros _ []|].
  intros [_ Hs]. simpl in Hs. apply Forall_cons in Hs as [Hc Hs].
  destruct (ok c); simpl; [|intros []]. intros [<-|[]]. now split.
Qed.

Lemma star_loop_ok (step : pos -> list pos) n :
  (forall p q, pos_ok P p -> In q (step p) -> pos_ok P q) ->
  forall p q, pos_ok P p -> In q (star_loop step n p) -> pos_ok P q.
Proof.
  intros Hstep. induction n as [|n IH]; intros p q Hp; simpl.
  - now intros [<-|[]].
  - rewrite in_app_iff, in_flat_map. intros [(m & Hm & Hq)|[<-|[]]]; auto.
    destruct (_ <? _)%nat; [|destruct Hq].
    apply (IH m q); eauto.
Qed.

Lemma exec_ok r : forall p q, pos_ok P p -> In q (exec r p) -> pos_ok P q.
Proof.
  induction r as [l|items|items| |r1 IH1 r2 IH2|r1 IH1 r2 IH2|r IH|r IH|r IH];
    intros p q Hp; simpl.
  - destruct (lit_match l p) eqn:E; [|intros []].
    intros [<-|[]]. eapply lit_match_ok; eauto.
  - apply one_char_ok, Hp.
  - apply one_char_ok, Hp.
  - destruct (at_boundary p); [|intros []]. now intros [<-|[]].
  - rewrite in_flat_map. intros (m & Hm & Hq). eauto.
  - rewrite in_app_iff. intros [H|H]; eauto.
  - rewrite in_app_iff. intros [H|[<-|[]]]; eauto.
  - apply star_loop_ok; auto.
  - rewrite in_flat_map. intros (m & Hm & Hq).
    eapply star_loop_ok; [exact IH| |exact Hq]. eauto.
Qed.

End MatcherFacts.

(** ** The repetition loop never runs short of rounds *)

Section Rounds.
Context {U : UnicodeData}.

Lemma lit_match_len l : forall p q,
  lit_match l p = Some q -> (length (snd q) <= length (snd p))%nat.
Proof.
  induction l as [|c l IH]; intros [prev s] q; simpl.
  - intros [= <-]. simpl. lia.
  - destruct s as [|d s]; [discriminate|].
    destruct (c =? d)%N; [|discriminate].
    intros H. apply IH in H. simpl in *. lia.
Qed.

Lemma one_char_len ok p q :
  In q (one_char ok p) -> (length (snd q) <= length (snd p))%nat.
Proof.
  destruct p as [prev [|c s]]; unfold one_char; simpl; [intros []|].
  destruct (ok c); simpl; [|intros []]. intros [<-|[]]. simpl. lia.
Qed.

Lemma star_loop_len (step : pos -> list pos) n :
  forall p q, In q (star_loop step n p) ->
              (length (snd q) <= length (snd p))%nat.
Proof.
  induction n as [|n IH]; intros p q; simpl.
  - intros [<-|[]]. lia.
  - rewrite in_app_iff, in_flat_map.
    intros [(m & Hm & Hq)|[<-|[]]]; [|lia].
    destruct (Nat.ltb_spec (length (snd m)) (length (snd p))) as [Hlt|_];
      [|destruct Hq].
    apply IH in Hq. lia.
Qed.

Lemma exec_len r : forall p q,
  In q (exec r p) -> (length (snd q) <= length (snd p))%nat.
Proof.
  induction r as [l|items|items| |r1 IH1 r2 IH2|r1 IH1 r2 IH2|r IH|r IH|r IH];
    intros p q; simpl.
  - destruct (lit_match l p) eqn:E; [|intros []].
    intros [<-|[]]. eapply lit_match_len; eauto.
  - apply one_char_len.
  - apply one_char_len.
  - destruct (at_boundary p); [|intros []]. intros [<-|[]]. lia.
  - rewrite in_flat_map. intros (m & Hm & Hq).
    apply IH1 in Hm. apply IH2 in Hq. lia.
  - rewrite in_app_iff. intros [H|H]; eauto.
  - rewrite in_app_iff. intros [H|[<-|[]]]; eauto.
  - apply star_loop_len.
  - rewrite in_flat_map. intros (m & Hm & Hq).
    apply IH in Hm. apply star_loop_len in Hq. lia.
Qed.

(** With as many rounds as characters left, one more round allowed changes
    nothing. *)
Lemma star_loop_rounds (step : pos -> list pos) :
  forall n p, (length (snd p) <= n)%nat ->
              star_loop step (S n) p = star_loop step n p.
Proof.
  induction n as [|n IH]; intros p Hp.
  - simpl. f_equal. rewrite flat_map_concat_map.
    induction (step p) as [|q qs IHq]; simpl; auto.
    destruct (Nat.ltb_spec (length (snd q)) (length (snd p))); [lia|].
    exact IHq.
  - change (star_loop step (S (S n)) p)
      with (flat_map (fun q =>
                        if (length (snd q) <? length (snd p))%nat
                        then star_loop step (S n) q else [])
                     (step p) ++ [p]).
    change (star_loop step (S n) p)
      with (flat_map (fun q =>
                        if (length (snd q) <? length (snd p))%nat
                        then star_loop step n q else [])
                     (step p) ++ [p]).
    f_equal. rewrite !flat_map_concat_map. f_equal.
    apply map_ext. intros q.
    destruct (Nat.ltb_spec (length (snd q)) (length (snd p))); auto.
    apply IH. lia.
Qed.

End Rounds.

(** ** On ASCII text, any database decides as its ASCII part does *)

Section Basic.
Context {U : UnicodeData} {HU : UnicodeBasic U}.

Lemma basic_forallb s : forallb basic s = true <-> Forall is_basic s.
Proof.
  induction s as [|c s IH]; simpl.
  - split; auto.
  - rewrite andb_true_iff, Forall_cons, IH. reflexivity.
Qed.

Lemma isword_basic c : is_basic c -> isword c = @isword BasicLatin c.
Proof. intros H. unfold isword. now rewrite isalnum_basic. Qed.

Lemma isword_at_basic o :
  match o with Some c => is_basic c | None => True end ->
  isword_at o = @isword_at BasicLatin o.
Proof. destruct o; simpl; auto using isword_basic. Qed.

Lemma at_boundary_basic p :
  pos_ok is_basic p -> at_boundary p = @at_boundary BasicLatin p.
Proof.
  destruct p as [prev s]. intros [Hp Hs]. unfold at_boundary. simpl in *.
  rewrite (isword_at_basic prev Hp). f_equal.
  apply isword_at_basic. destruct Hs; simpl; auto.
Qed.

Lemma set_has_basic items c :
  is_basic c -> set_has items c = @set_has BasicLatin items c.
Proof.
  intros H. unfold set_has. induction items as [|i items IH]; simpl; auto.
  rewrite IH. f_equal.
  destruct i; simpl; auto using isspace_basic, isdecimal_basic.
Qed.

Lemma one_char_ext ok1 ok2 p :
  (forall c, is_basic c -> ok1 c = ok2 c) -> pos_ok is_basic p ->
  one_char ok1 p = one_char ok2 p.
Proof.
  intros H [_ Hs]. destruct p as [prev [|c s]]; unfold one_char; simpl; auto.
  simpl in Hs. apply Forall_cons in Hs as [Hc _]. now rewrite (H c Hc).
Qed.

Lemma star_loop_ext (step1 step2 : pos -> list pos) n :
  (forall p, pos_ok is_basic p -> step1 p = step2 p) ->
  (forall p q, pos_ok is_basic p -> In q (step2 p) -> pos_ok is_basic q) ->
  forall p, pos_ok is_basic p -> star_loop step1 n p = star_loop step2 n p.
Proof.
  intros Heq Hok. induction n as [|n IH]; intros p Hp; simpl; auto.
  rewrite (Heq p Hp). f_equal. rewrite !flat_map_concat_map. f_equal.
  apply map_ext_in. intros q Hq. destruct (_ <? _)%nat; eauto.
Qed.

Lemma exec_basic r :
  forall p, pos_ok is_basic p -> exec r p = @exec BasicLatin r p.
Proof.
  induction r as [l|items|items| |r1 IH1 r2 IH2|r1 IH1 r2 IH2|r IH|r IH|r IH];
    intros p Hp; simpl.
  - reflexivity.
  - apply one_char_ext; auto using set_has_basic.
  - apply one_char_ext; auto. intros c Hc. now rewrite set_has_basic.
  - now rewrite at_boundary_basic.
  - rewrite (IH1 p Hp), !flat_map_concat_map. f_equal.
    apply map_ext_in. intros q Hq. apply IH2.
    eapply (@exec_ok BasicLatin); eauto.
  - now rewrite IH1, IH2.
  - now rewrite IH.
  - apply star_loop_ext; auto. apply (@exec_ok BasicLatin).
  - rewrite (IH p Hp), !flat_map_concat_map. f_equal.
    apply map_ext_in. intros q Hq. apply star_loop_ext; auto.
    + apply (@exec_ok BasicLatin).
    + eapply (@exec_ok BasicLatin); eauto.
Qed.

Lemma matches_at_basic r p :
  pos_ok is_basic p -> matches_at r p = @matches_at BasicLatin r p.
Proof. intros H. unfold matches_at. now rewrite exec_basic. Qed.

Lemma search_from_basic r prev s :
  pos_ok is_basic (prev, s) ->
  search_from r prev s = @search_from BasicLatin r prev s.
Proof.
  revert prev. induction s as [|c s IH]; intros prev Hp; simpl.
  - now rewrite matches_at_basic.
  - rewrite matches_at_basic by assumption. f_equal. apply IH.
    destruct Hp as [_ Hs]. simpl in Hs. apply Forall_cons in Hs as [Hc Hs].
    now split.
Qed.

Lemma re_search_basic r s :
  forallb basic s = true -> re_search r s = @re_search BasicLatin r s.
Proof.
  intros H. apply search_from_basic. split; simpl; auto.
  now apply basic_forallb.
Qed.

Lemma re_match_basic r s :
  forallb basic s = true -> re_match r s = @re_match BasicLatin r s.
Proof.
  intros H. apply matches_at_basic. split; simpl; auto.
  now apply basic_forallb.
Qed.

Lemma sub_from_basic r repl skip prev s :
  pos_ok is_basic (prev, s) ->
  sub_from r repl skip prev s = @sub_from BasicLatin r repl skip prev s.
Proof.
  revert skip prev. induction s as [|c s IH]; intros skip prev Hp; simpl.
  - now rewrite matches_at_basic.
  - assert (Hn : pos_ok is_basic (Some c, s)).
    { destruct Hp as [_ Hs]. simpl in Hs.
      apply Forall_cons in Hs as [Hc Hs]. now split. }
    destruct skip as [|k]; [|now apply IH].
    rewrite exec_basic by assumption.
    destruct (@exec BasicLatin r (prev, c :: s)) as [|q qs];
      [now rewrite IH|].
    destruct (_ - _)%nat; now rewrite IH.
Qed.

Lemma re_sub_basic r repl s :
  forallb basic s = true -> re_sub r repl s = @re_sub BasicLatin r repl s.
Proof.
  intros H. apply sub_from_basic. split; simpl; auto.
  now apply basic_forallb.
Qed.

End Basic.

(** ** String operations keep a property of the characters *)

Section Keeps.
Context {U : UnicodeData}.
Variable P : N -> Prop.

Lemma lstrip_by_keeps p s : Forall P s -> Forall P (lstrip_by p s).
Proof.
  induction 1 as [|c s Hc Hs IH]; simpl; auto.
  destruct (p c); auto.
Qed.

Lemma strip_by_keeps p s : Forall P s -> Forall P (strip_by p s).
Proof.
  intros H. unfold strip_by, rstrip_by.
  apply List.Forall_rev, lstrip_by_keeps, List.Forall_rev.
  now apply lstrip_by_keeps.
Qed.

Lemma replace_from_keeps old new skip s :
  Forall P new -> Forall P s -> Forall P (replace_from old new skip s).
Proof.
  intros Hn Hs. revert skip.
  induction Hs as [|c s Hc Hs IH]; intros skip; simpl; auto.
  destruct skip; auto.
  destruct (starts_with _ _); auto. apply Forall_app. auto.
Qed.

Lemma str_replace_keeps old new s :
  Forall P new -> Forall P s -> Forall P (str_replace old new s).
Proof.
  intros. destruct old; simpl; auto. now apply replace_from_keeps.
Qed.

Lemma sub_from_keeps r repl skip prev s :
  Forall P repl -> Forall P s -> Forall P (sub_from r repl skip prev s).
Proof.
  intros Hr Hs. revert skip prev.
  induction Hs as [|c s Hc Hs IH]; intros skip prev; simpl.
  - destruct skip; auto. destruct (matches_at _ _); auto.
  - destruct skip; auto.
    destruct (exec r (prev, c :: s)); auto.
    destruct (_ - _)%nat; apply Forall_app; auto.
Qed.

End Keeps.

Lemma lstrip_by_ext (p1 p2 : N -> bool) s :
  Forall (fun c => p1 c = p2 c) s -> lstrip_by p1 s = lstrip_by p2 s.
Proof.
  induction 1 as [|c s Hc Hs IH]; simpl; auto.
  rewrite Hc, IH. reflexivity.
Qed.

Lemma strip_by_ext (p1 p2 : N -> bool) s :
  Forall (fun c => p1 c = p2 c) s -> strip_by p1 s = strip_by p2 s.
Proof.
  intros H. unfold strip_by, rstrip_by.
  rewrite (lstrip_by_ext p1 p2 s H). f_equal.
  apply lstrip_by_ext, List.Forall_rev, lstrip_by_keeps, H.
Qed.

Lemma basic_lower_keeps s :
  Forall is_basic s -> Forall is_basic (map basic_lower s).
Proof.
  induction 1 as [|c s Hc Hs IH]; simpl; constructor; auto.
  revert Hc. unfold is_basic, basic, basic_lower, in_range.
  change (ch "A") with 65. change (ch "Z") with 90.
  destruct (N.leb_spec 65 c), (N.leb_spec c 90); cbn [andb]; auto.
  intros _. apply orb_true_iff. left. apply N.ltb_lt. lia.
Qed.

Lemma basic_upper_keeps s :
  Forall is_basic s -> Forall is_basic (map basic_upper s).
Proof.
  induction 1 as [|c s Hc Hs IH]; simpl; constructor; auto.
  revert Hc. unfold is_basic, basic, basic_upper, in_range.
  change (ch "a") with 97. change (ch "z") with 122.
  destruct (N.leb_spec 97 c), (N.leb_spec c 122); cbn [andb]; auto.
  intros _. apply orb_true_iff. left. apply N.ltb_lt. lia.
Qed.

(** The ASCII part of the database meets the assumptions made on it. *)
Lemma BasicLatin_basic : UnicodeBasic BasicLatin.
Proof. split; reflexivity. Qed.

(** ** On ASCII rows, the script decides as with the ASCII part alone *)

Section Transfer.
Context {U : UnicodeData} {HU : UnicodeBasic U}.

Lemma str_strip_basic s :
  forallb basic s = true -> str_strip s = @str_strip BasicLatin s.
Proof.
  intros H. apply strip_by_ext. apply basic_forallb in H.
  eapply Forall_impl; [exact H|]. intros c Hc. now apply isspace_basic.
Qed.

Lemma first_rule_basic rules n :
  forallb basic n = true ->
  first_rule rules n = @first_rule BasicLatin rules n.
Proof.
  intros H. induction rules as [|[pattern fam] rest IH]; simpl; auto.
  now rewrite re_search_basic, IH.
Qed.

Lemma apply_synonyms_keeps n :
  forallb basic n = true -> forallb basic (apply_synonyms n) = true.
Proof.
  rewrite !basic_forallb. intros H.
  unfold apply_synonyms, FAMILY_SYNONYMS. cbn [fold_left fst snd].
  repeat (apply str_replace_keeps; [now apply basic_forallb|]). exact H.
Qed.

Lemma lowered_basic s :
  forallb basic s = true -> forallb basic (map basic_lower s) = true.
Proof. rewrite !basic_forallb. apply basic_lower_keeps. Qed.

Lemma eco_fallback_basic eco :
  forallb basic eco = true -> eco_fallback eco = @eco_fallback BasicLatin eco.
Proof.
  intros H. unfold eco_fallback.
  repeat match goal with
         | |- context [@re_match U ?r eco] => rewrite (re_match_basic r eco H)
         end.
  reflexivity.
Qed.

Lemma canonical_family_basic name eco :
  forallb basic name = true -> forallb basic eco = true ->
  canonical_family name eco = @canonical_family BasicLatin name eco.
Proof.
  intros Hn He. unfold canonical_family.
  rewrite (lower_basic name Hn), (upper_basic eco He).
  pose proof (apply_synonyms_keeps _ (lowered_basic _ Hn)) as Hs.
  assert (Hu : forallb basic (map basic_upper eco) = true).
  { apply basic_forallb, basic_upper_keeps, basic_forallb, He. }
  assert (Ht : forallb basic (@str_strip BasicLatin (map basic_upper eco))
               = true).
  { apply basic_forallb, strip_by_keeps, basic_forallb, Hu. }
  rewrite (first_rule_basic _ _ Hs).
  repeat match goal with
         | |- context [@re_search U ?r ?n] => rewrite (re_search_basic r n Hs)
         end.
  rewrite (str_strip_basic _ Hu), (eco_fallback_basic _ Ht).
  reflexivity.
Qed.

Lemma hint_applies_basic hint :
  forallb basic hint = true ->
  hint_applies hint = @hint_applies BasicLatin hint.
Proof. intros H. unfold hint_applies. now rewrite upper_basic. Qed.

Lemma slugify_hint_basic hint :
  forallb basic hint = true ->
  slugify_hint hint = @slugify_hint BasicLatin hint.
Proof.
  intros H. unfold slugify_hint. rewrite (nfkd_basic hint H).
  change (@nfkd BasicLatin hint) with hint.
  set (h1 := str_replace _ _ (str_replace _ _ (str_replace _ _ hint))).
  assert (H1 : forallb basic h1 = true).
  { apply basic_forallb.
    repeat (apply str_replace_keeps; [now apply basic_forallb|]).
    now apply basic_forallb. }
  rewrite (re_sub_basic _ _ h1 H1).
  set (h2 := @re_sub BasicLatin _ _ h1).
  assert (H2 : forallb basic h2 = true).
  { apply basic_forallb, sub_from_keeps; now apply basic_forallb. }
  rewrite (str_strip_basic h2 H2).
  set (h3 := @str_strip BasicLatin h2).
  assert (H3 : forallb basic h3 = true).
  { apply basic_forallb, strip_by_keeps, basic_forallb, H2. }
  rewrite (re_sub_basic _ _ h3 H3).
  set (h4 := @re_sub BasicLatin _ _ h3).
  assert (H4 : forallb basic h4 = true).
  { apply basic_forallb, sub_from_keeps; now apply basic_forallb. }
  now rewrite (lower_basic h4 H4).
Qed.

Lemma resolve_basic name eco hint :
  forallb basic name = true -> forallb basic eco = true ->
  forallb basic hint = true ->
  resolve name eco hint = @resolve BasicLatin name eco hint.
Proof.
  intros Hn He Hh. unfold resolve.
  now rewrite hint_applies_basic, slugify_hint_basic, canonical_family_basic.
Qed.

Lemma dutch_staunton_notes_basic name :
  forallb basic name = true ->
  dutch_staunton_notes name = @dutch_staunton_notes BasicLatin name.
Proof.
  intros H. unfold dutch_staunton_notes. rewrite (lower_basic name H).
  repeat match goal with
         | |- context [@re_search U ?r ?n] =>
             rewrite (re_search_basic r n (lowered_basic _ H))
         end.
  reflexivity.
Qed.

Lemma acceptance_status_basic name :
  forallb basic name = true ->
  acceptance_status name = @acceptance_status BasicLatin name.
Proof. intros H. unfold acceptance_status. now rewrite lower_basic. Qed.

(** A row all of whose text the script reads is ASCII. *)
Lemma crosswalk_of_basic (r : row) :
  forallb basic (row_name r) = true -> forallb basic (row_eco r) = true ->
  forallb basic (row_hint r) = true ->
  crosswalk_of r = @crosswalk_of BasicLatin r
  /\ row_resolve r = @row_resolve BasicLatin r.
Proof.
  intros Hn He Hh. unfold crosswalk_of, row_resolve.
  now rewrite resolve_basic, dutch_staunton_notes_basic,
    acceptance_status_basic.
Qed.

End Transfer.

(** ** The loop of [main] *)

Section Loop.
Context {U : UnicodeData}.

Lemma crosswalk_of_key r :
  cw_canonical_family_key (crosswalk_of r) = fst (row_resolve r).
Proof. unfold crosswalk_of. now destruct (row_resolve r). Qed.

Lemma crosswalk_of_confidence r :
  cw_confidence (crosswalk_of r) = fmt_2f (snd (row_resolve r)).
Proof. unfold crosswalk_of. now destruct (row_resolve r). Qed.

Lemma crosswalk_of_needs_review r :
  cw_needs_review (crosswalk_of r)
  = if row_needs_review r then u "TRUE" else u "FALSE".
Proof.
  unfold crosswalk_of, row_needs_review. now destruct (row_resolve r).
Qed.

Lemma crosswalk_of_notes r :
  cw_notes (crosswalk_of r) = dutch_staunton_notes (row_name r).
Proof. unfold crosswalk_of. now destruct (row_resolve r). Qed.

Lemma step_eq t r :
  step t r =
  {| crosswalk := crosswalk t ++ [crosswalk_of r];
     families := if truthy (fst (row_resolve r))
                 then bump (fst (row_resolve r)) (families t)
                 else families t;
     review := if row_needs_review r then review t ++ [review_of r]
               else review t |}.
Proof. unfold step, row_needs_review. now destruct (row_resolve r). Qed.

Lemma fold_step_crosswalk rows : forall t,
  crosswalk (fold_left step rows t) = crosswalk t ++ map crosswalk_of rows.
Proof.
  induction rows as [|r rows IH]; intros t; simpl.
  - now rewrite app_nil_r.
  - rewrite IH, step_eq. simpl. now rewrite <- app_assoc.
Qed.

Lemma fold_step_review rows : forall t,
  review (fold_left step rows t)
  = review t
    ++ map review_of (filter (fun r => row_needs_review r = true) rows).
Proof.
  induction rows as [|r rows IH]; intros t; simpl.
  - now rewrite app_nil_r.
  - rewrite IH, step_eq. simpl.
    destruct (row_needs_review r) eqn:E.
    + rewrite filter_cons_True by exact E. simpl. now rewrite <- app_assoc.
    + rewrite filter_cons_False by congruence. reflexivity.
Qed.

Lemma key_count_snoc k cws c :
  key_count k (cws ++ [c])
  = (key_count k cws
     + if decide (cw_canonical_family_key c = k) then 1 else 0)%nat.
Proof.
  unfold key_count. rewrite filter_app, length_app. f_equal.
  destruct (decide (cw_canonical_family_key c = k)) as [E|E].
  - now rewrite filter_cons_True.
  - now rewrite filter_cons_False.
Qed.

Lemma step_tally t r :
  (forall k, families t !! k = tally k (crosswalk t)) ->
  forall k, families (step t r) !! k = tally k (crosswalk (step t r)).
Proof.
  intros Inv k. rewrite step_eq. simpl. unfold tally.
  rewrite key_count_snoc, crosswalk_of_key.
  destruct (decide (fst (row_resolve r) = k)) as [E|E].
  - subst k. destruct (truthy (fst (row_resolve r))) eqn:T.
    + unfold bump. rewrite lookup_insert_eq, Inv. unfold tally. rewrite T.
      destruct (key_count _ _); simpl; f_equal; lia.
    + now rewrite Inv; unfold tally; rewrite T.
  - rewrite Nat.add_0_r.
    destruct (truthy (fst (row_resolve r))).
    + unfold bump. rewrite lookup_insert_ne by exact E. apply Inv.
    + apply Inv.
Qed.

Lemma fold_step_tally rows : forall t,
  (forall k, families t !! k = tally k (crosswalk t)) ->
  forall k, families (fold_left step rows t) !! k
            = tally k (crosswalk (fold_left step rows t)).
Proof.
  induction rows as [|r rows IH]; intros t Inv; simpl; auto.
  apply IH, step_tally, Inv.
Qed.

Lemma main_loop_tally rows k :
  families (main_loop rows) !! k = tally k (crosswalk (main_loop rows)).
Proof.
  apply fold_step_tally. intros k'. unfold tally. simpl.
  rewrite lookup_empty. now destruct (truthy k').
Qed.

End Loop.

(** ** The family table *)

Section FamilyTable.
Context {U : UnicodeData}.

Lemma rows_for_family_rows k keys (mk : pystr -> list pystr) :
  (forall key, head (mk key) = Some key) ->
  length (rows_for k (map mk keys)) = length (filter (fun key => key = k) keys).
Proof.
  intros Hmk. unfold rows_for. induction keys as [|key keys IH]; simpl; auto.
  destruct (decide (key = k)) as [E|E].
  - rewrite !filter_cons_True; simpl; auto. rewrite Hmk. congruence.
  - rewrite !filter_cons_False; auto. rewrite Hmk. congruence.
Qed.

Lemma count_in_NoDup (k : pystr) keys :
  NoDup keys ->
  length (filter (fun key => key = k) keys)
  = if decide (k ∈ keys) then 1%nat else 0%nat.
Proof.
  induction 1 as [|key keys Hnot Hnd IH].
  - reflexivity.
  - destruct (decide (key = k)) as [E|E].
    + subst key. rewrite filter_cons_True by reflexivity. simpl. rewrite IH.
      rewrite decide_False by exact Hnot.
      rewrite decide_True by apply list_elem_of_here. reflexivity.
    + rewrite filter_cons_False by exact E. rewrite IH.
      destruct (decide (k ∈ keys)) as [I|I].
      * rewrite decide_True by now apply list_elem_of_further. reflexivity.
      * rewrite decide_False; [reflexivity|].
        intros [?|?]%elem_of_cons; congruence.
Qed.

Lemma sorted_keys_NoDup (fams : gmap pystr nat) :
  NoDup (merge_sort str_le (map_to_list fams).*1).
Proof. rewrite merge_sort_Permutation. apply NoDup_fst_map_to_list. Qed.

Lemma sorted_keys_elem (fams : gmap pystr nat) k :
  k ∈ merge_sort str_le (map_to_list fams).*1 <-> is_Some (fams !! k).
Proof.
  rewrite merge_sort_Permutation, list_elem_of_fmap. split.
  - intros ([k' n] & -> & H). apply elem_of_map_to_list in H. simpl. eauto.
  - intros [n H]. exists (k, n). split; auto. now apply elem_of_map_to_list.
Qed.

Lemma family_rows_for fams k :
  length (rows_for k (family_rows fams))
  = if decide (is_Some (fams !! k)) then 1%nat else 0%nat.
Proof.
  unfold family_rows. rewrite rows_for_family_rows by reflexivity.
  rewrite count_in_NoDup by apply sorted_keys_NoDup.
  destruct (decide (is_Some (fams !! k))) as [E|E].
  - rewrite decide_True; auto. now apply sorted_keys_elem.
  - rewrite decide_False; auto. now rewrite sorted_keys_elem.
Qed.

Lemma key_count_pos k cws :
  (0 < key_count k cws)%nat <->
  exists c, c ∈ cws /\ cw_canonical_family_key c = k.
Proof.
  unfold key_count. split.
  - destruct (filter _ cws) as [|c l] eqn:E; simpl; [lia|]. intros _.
    assert (H : c ∈ filter (fun c => cw_canonical_family_key c = k) cws).
    { rewrite E. apply list_elem_of_here. }
    apply list_elem_of_filter in H as [H1 H2]. eauto.
  - intros (c & Hc & Hk).
    assert (H : c ∈ filter (fun c => cw_canonical_family_key c = k) cws).
    { apply list_elem_of_filter. auto. }
    destruct (filter _ cws); simpl; [|lia]. now apply elem_of_nil in H.
Qed.

End FamilyTable.

(** ** [\bword\b] finds whole words *)

Section WholeWord.
Context {U : UnicodeData}.

Lemma prev_after_cons prev c pre :
  prev_after prev (c :: pre) = prev_after (Some c) pre.
Proof. unfold prev_after. rewrite last_cons. now destruct (last pre). Qed.

Lemma search_from_spec r : forall s prev,
  search_from r prev s = true <->
  exists pre rest,
    s = pre ++ rest /\ matches_at r (prev_after prev pre, rest) = true.
Proof.
  induction s as [|c s IH]; intros prev; simpl.
  - rewrite orb_false_r. split.
    + intros H. now exists [], [].
    + intros (pre & rest & E & H).
      symmetry in E. apply app_eq_nil in E as [-> ->]. exact H.
  - rewrite orb_true_iff, IH. split.
    + intros [H|(pre & rest & -> & H)].
      * now exists [], (c :: s).
      * exists (c :: pre), rest. now rewrite prev_after_cons.
    + intros ([|d pre] & rest & E & H).
      * simpl in E. subst rest. now left.
      * simpl in E. injection E as <- ->. right.
        exists pre, rest. now rewrite <- (prev_after_cons prev).
Qed.

Lemma lit_match_spec l : forall p q,
  lit_match l p = Some q <->
  exists post, snd p = l ++ post /\ q = (prev_after (fst p) l, post).
Proof.
  induction l as [|c l IH]; intros [prev s] q; simpl.
  - split.
    + intros [= <-]. now exists s.
    + intros (post & -> & ->). reflexivity.
  - destruct s as [|d s].
    + split; [discriminate|]. intros (post & E & _). discriminate.
    + destruct (N.eqb_spec c d) as [<-|Hne].
      * rewrite IH. cbn [fst snd]. split.
        -- intros (post & -> & ->). exists post.
           now rewrite (prev_after_cons prev c l).
        -- intros (post & [= ->] & ->). exists post.
           now rewrite (prev_after_cons prev c l).
      * split; [discriminate|]. intros (post & [= E _] & _). congruence.
Qed.

Lemma word_pattern_at w p :
  matches_at (Bnd ~~ Lit w ~~ Bnd) p = true <->
  at_boundary p = true /\
  exists post, snd p = w ++ post /\
               at_boundary (prev_after (fst p) w, post) = true.
Proof.
  unfold matches_at. simpl. destruct (at_boundary p); simpl.
  - rewrite app_nil_r. destruct (lit_match w p) as [q|] eqn:E; simpl.
    + apply lit_match_spec in E as (post & Hp & ->). rewrite app_nil_r.
      split.
      * intros H. split; auto. exists post. split; auto.
        now destruct (at_boundary _).
      * intros (_ & post' & Hp' & Hb). rewrite Hp in Hp'.
        apply app_inv_head in Hp'. subst post'. now rewrite Hb.
    + split; [discriminate|]. intros (_ & post & Hp & _).
      assert (H : lit_match w p
                  = Some (prev_after (fst p) w, post)).
      { apply lit_match_spec. eauto. }
      congruence.
  - split; [discriminate|]. intros [? _]. discriminate.
Qed.

(** For a word that begins and ends with a word character, the pattern
    [\bw\b] is found exactly where [w] stands as a whole word. *)
Lemma word_pattern_search c w d s :
  isword c = true -> last (c :: w) = Some d -> isword d = true ->
  re_search (Bnd ~~ Lit (c :: w) ~~ Bnd) s = true <-> whole_word (c :: w) s.
Proof.
  intros Hc Hl Hd. unfold re_search, whole_word. rewrite search_from_spec.
  split.
  - intros (pre & rest & -> & H). apply word_pattern_at in H.
    destruct H as (Hb & post & Hr & Hb'). simpl in Hr. subst rest.
    exists pre, post. split; [reflexivity|].
    unfold at_boundary, prev_after in Hb, Hb'. simpl in Hb, Hb'.
    rewrite Hc in Hb. rewrite Hl in Hb'. simpl in Hb'. rewrite Hd in Hb'.
    split.
    + destruct (last pre); simpl in *; destruct (isword_at _); auto;
        try discriminate. destruct (isword n); auto; discriminate.
    + destruct (isword_at (head post)); auto; discriminate.
  - intros (pre & post & -> & Hp & Hq). exists pre, (c :: w ++ post).
    split; [reflexivity|]. apply word_pattern_at. split.
    + unfold at_boundary, prev_after. simpl. rewrite Hc.
      destruct (last pre); simpl in *; now rewrite ?Hp.
    + exists post. split; [reflexivity|].
      unfold at_boundary, prev_after. simpl fst. rewrite Hl. simpl.
      now rewrite Hd, Hq.
Qed.

End WholeWord.

(** ** Several source files *)

Section Files.
Context {U : UnicodeData}.

Lemma read_rows_app files1 files2 :
  read_rows (files1 ++ files2) = read_rows files1 ++ read_rows files2.
Proof. unfold read_rows. apply flat_map_app. Qed.

(** The records with a given key are counted over all the files read. *)
Lemma key_count_files k files1 files2 :
  key_count k (crosswalk (main_loop (read_rows (files1 ++ files2))))
  = (key_count k (crosswalk (main_loop (read_rows files1)))
     + key_count k (crosswalk (main_loop (read_rows files2))))%nat.
Proof.
  unfold main_loop. rewrite !fold_step_crosswalk. simpl.
  rewrite read_rows_app, map_app. unfold key_count.
  now rewrite filter_app, length_app.
Qed.

Lemma main_tables files :
  main files
  = (map crosswalk_of (read_rows files),
     map review_of
       (filter (fun r => row_needs_review r = true) (read_rows files)),
     family_rows (families (main_loop (read_rows files)))).
Proof.
  unfold main, main_loop. now rewrite fold_step_crosswalk, fold_step_review.
Qed.

End Files.

(** ** Worked examples of the classifier *)

Section Examples.
Context {U : UnicodeData} {HU : UnicodeBasic U}.

Lemma najdorf_example :
  canonical_family (u "Sicilian Defense, Najdorf Variation") []
  = (u "sicilian-defense", 0.99%float).
Proof. rewrite canonical_family_basic by reflexivity. now vm_compute. Qed.

(** Written without a separator, the name reaches the rule of its own. *)
Lemma semislav_example :
  canonical_family (u "Semislav Defense") []
  = (u "semi-slav-defense", 0.99%float).
Proof. rewrite canonical_family_basic by reflexivity. now vm_compute. Qed.

Lemma unknown_eco_example :
  canonical_family (u "random unclassifiable string") (u "Z99")
  = ([], 0.0%float).
Proof. rewrite canonical_family_basic by reflexivity. now vm_compute. Qed.

Lemma lowercase_eco_example :
  canonical_family [] (u " b44 ") = (u "sicilian-defense", 0.90%float).
Proof. rewrite canonical_family_basic by reflexivity. now vm_compute. Qed.

End Examples.

(** ** The claims *)

Lemma row_conf_values {U : UnicodeData} (r : row) :
  In (snd (row_resolve r)) (0.0%float :: TIER_CONFIDENCES).
Proof.
  unfold row_resolve.
  destruct (resolve_conf (row_name r) (row_eco r) (row_hint r)) as [->|[_ H]].
  - now left.
  - now right.
Qed.

Lemma main_loop_crosswalk {U : UnicodeData} (rows : list row) :
  crosswalk (main_loop rows) = map crosswalk_of rows.
Proof. unfold main_loop. now rewrite fold_step_crosswalk. Qed.

(** C1: the needs_review field of a row's Crosswalk Record is TRUE exactly
    when its canonical_family_key is empty or its confidence is below 0.85
    (on the written record: the confidence cell reads 0.00 or 0.80), and
    FALSE otherwise; two rows with the same key and confidence get the same
    flag.  Every record of the crosswalk table is the record of its row. *)
Theorem C1_needs_review {U : UnicodeData} (r : row) :
  let cw := crosswalk_of r in
  let conf := snd (row_resolve r) in
  (cw_needs_review cw = u "TRUE" <->
     cw_canonical_family_key cw = [] \/ flt conf 0.85%float = true) /\
  (cw_needs_review cw = u "FALSE" <->
     ~ (cw_canonical_family_key cw = [] \/ flt conf 0.85%float = true)) /\
  cw_confidence cw = fmt_2f conf /\
  (flt conf 0.85%float = true <->
     cw_confidence cw = u "0.00" \/ cw_confidence cw = u "0.80") /\
  (forall r',
     cw_canonical_family_key (crosswalk_of r') = cw_canonical_family_key cw ->
     snd (row_resolve r') = conf ->
     cw_needs_review (crosswalk_of r') = cw_needs_review cw) /\
  (forall rows, crosswalk (main_loop rows) = map crosswalk_of rows).
Proof.
  cbv zeta.
  assert (Hflag : forall r0,
    row_needs_review r0 = true <->
    cw_canonical_family_key (crosswalk_of r0) = [] \/
    flt (snd (row_resolve r0)) 0.85%float = true).
  { intros r0. rewrite crosswalk_of_key. unfold row_needs_review, review_needed.
    rewrite orb_true_iff, negb_true_iff, truthy_nil. reflexivity. }
  rewrite !crosswalk_of_needs_review, crosswalk_of_confidence.
  repeat split.
  - destruct (row_needs_review r) eqn:E; [intros _; now apply Hflag|].
    discriminate.
  - intros H. apply Hflag in H. now rewrite H.
  - destruct (row_needs_review r) eqn:E; [discriminate|].
    intros _ H. apply Hflag in H. congruence.
  - intros H. destruct (row_needs_review r) eqn:E; auto.
    exfalso. apply H, Hflag, E.
  - pose proof (row_conf_values r) as Hc. simpl in Hc.
    destruct Hc as [<-|[<-|[<-|[<-|[<-|[<-|[]]]]]]]; vm_compute;
      intros; solve [discriminate | auto].
  - pose proof (row_conf_values r) as Hc. simpl in Hc.
    destruct Hc as [<-|[<-|[<-|[<-|[<-|[<-|[]]]]]]]; vm_compute;
      intros [?|?]; solve [discriminate | auto].
  - intros r' Hk Hc. rewrite crosswalk_of_needs_review.
    assert (E : row_needs_review r' = row_needs_review r).
    { unfold row_needs_review. rewrite Hc.
      rewrite !crosswalk_of_key in Hk. now rewrite Hk. }
    now rewrite E.
  - apply main_loop_crosswalk.
Qed.

(** C2: for every row the confidence is 0.0 exactly when the resulting key
    is empty; with a non-empty key it is one of 0.99, 0.95, 0.90, 0.85,
    0.80; so it always lies in {0.0, 0.80, 0.85, 0.90, 0.95, 0.99}, and the
    written cell is the two-decimal text of one of these. *)
Theorem C2_confidence_values {U : UnicodeData} (r : row) :
  let key := cw_canonical_family_key (crosswalk_of r) in
  let conf := snd (row_resolve r) in
  (conf = 0.0%float <-> key = []) /\
  (key <> [] ->
   In conf [0.99%float; 0.95%float; 0.90%float; 0.85%float; 0.80%float]) /\
  In conf [0.0%float; 0.80%float; 0.85%float; 0.90%float; 0.95%float;
           0.99%float] /\
  In (cw_confidence (crosswalk_of r))
     [u "0.00"; u "0.80"; u "0.85"; u "0.90"; u "0.95"; u "0.99"].
Proof.
  cbv zeta. rewrite crosswalk_of_key, crosswalk_of_confidence.
  unfold row_resolve.
  destruct (resolve_conf (row_name r) (row_eco r) (row_hint r))
    as [->|[Hk Hc]].
  - simpl. repeat split; auto; tauto.
  - apply truthy_cons in Hk. repeat split.
    + intros H. now apply tier_confidence_nonzero in Hc.
    + intros H. congruence.
    + intros _. exact Hc.
    + simpl in Hc. simpl. tauto.
    + simpl in Hc.
      destruct Hc as [<-|[<-|[<-|[<-|[<-|[]]]]]]; vm_compute; tauto.
Qed.

(** C3: a row whose family hint is non-empty, is not "#N/A" once
    upper-cased, and has a non-empty slug resolves to that slug with
    confidence 0.90 (written 0.90) whatever its name and eco_code are: the
    result is the same for every name and every eco_code. *)
Theorem C3_hint_precedence {U : UnicodeData} (r : row) :
  truthy (row_hint r) = true ->
  str_upper (row_hint r) <> u "#N/A" ->
  slugify_hint (row_hint r) <> [] ->
  cw_canonical_family_key (crosswalk_of r) = slugify_hint (row_hint r) /\
  snd (row_resolve r) = 0.90%float /\
  cw_confidence (crosswalk_of r) = u "0.90" /\
  forall name eco,
    resolve name eco (row_hint r) = (slugify_hint (row_hint r), 0.90%float).
Proof.
  intros Ht Hu Hs.
  assert (Ha : hint_applies (row_hint r) = true).
  { unfold hint_applies, str_eqb. rewrite Ht. simpl.
    now rewrite bool_decide_eq_false_2. }
  apply truthy_cons in Hs.
  assert (H : forall name eco,
    resolve name eco (row_hint r) = (slugify_hint (row_hint r), 0.90%float)).
  { intros. now apply resolve_hint. }
  rewrite crosswalk_of_key, crosswalk_of_confidence. unfold row_resolve.
  rewrite H. simpl. repeat split. exact H.
Qed.

Lemma C3_hint_precedence_witness :
  truthy (row_hint row_hinted) = true /\
  @str_upper BasicLatin (row_hint row_hinted) <> u "#N/A" /\
  @slugify_hint BasicLatin (row_hint row_hinted) <> [] /\
  cw_canonical_family_key (@crosswalk_of BasicLatin row_hinted)
  = u "queens-gambit".
Proof.
  assert (H1 : truthy (row_hint row_hinted) = true) by reflexivity.
  assert (H2 : @str_upper BasicLatin (row_hint row_hinted) <> u "#N/A")
    by (vm_compute; discriminate).
  assert (H3 : @slugify_hint BasicLatin (row_hint row_hinted) <> [])
    by (vm_compute; discriminate).
  split; [exact H1|split; [exact H2|split; [exact H3|]]].
  rewrite (proj1 (@C3_hint_precedence BasicLatin row_hinted H1 H2 H3)).
  vm_compute. reflexivity.
Defined.

(** C6: when the hint tier yields no key and no name pattern matches, the
    result is that of the first band of the ordered ECO table matching the
    upper-cased, trimmed eco_code (nothing, with confidence 0.0, when none
    does); the row with empty name, empty hint and eco_code "B44" resolves
    to "sicilian-defense" with confidence 0.90. *)
Theorem C6_eco_tier {U : UnicodeData} {HU : UnicodeBasic U} :
  (forall name eco hint,
     hint_applies hint && truthy (slugify_hint hint) = false ->
     first_rule FAMILY_RULES (apply_synonyms (str_lower name)) = None ->
     resolve name eco hint
     = first_band ECO_BANDS (str_strip (str_upper eco))) /\
  row_name row_b44 = [] /\ row_hint row_b44 = [] /\
  row_eco row_b44 = u "B44" /\
  row_resolve row_b44 = (u "sicilian-defense", 0.90%float) /\
  cw_canonical_family_key (crosswalk_of row_b44) = u "sicilian-defense" /\
  cw_confidence (crosswalk_of row_b44) = u "0.90".
Proof.
  split.
  - intros name eco hint Hh Hn. rewrite resolve_no_hint by exact Hh.
    destruct (canonical_family_cases name eco) as [(fam & Hf & _)|[_ ->]].
    + congruence.
    + apply eco_fallback_table.
  - destruct (crosswalk_of_basic row_b44) as [-> ->]; try reflexivity.
    vm_compute. repeat split; reflexivity.
Qed.

Lemma C6_eco_tier_witness :
  UnicodeBasic BasicLatin /\
  @row_resolve BasicLatin row_b44 = (u "sicilian-defense", 0.90%float).
Proof.
  split; [exact BasicLatin_basic|].
  exact (proj1 (proj2 (proj2 (proj2 (proj2
           (@C6_eco_tier BasicLatin BasicLatin_basic)))))).
Defined.

Lemma main_loop_review {U : UnicodeData} (rows : list row) :
  review (main_loop rows)
  = map review_of (filter (fun r => row_needs_review r = true) rows).
Proof. unfold main_loop. now rewrite fold_step_review. Qed.

(** C7: the crosswalk table has one record per input row, in order; the
    review table has the record of a row exactly when that row needs
    review, always with the reason "low_confidence_or_unmatched"; and the
    row named "random unclassifiable string" with eco_code "Z99" and no
    hint has key "", confidence 0.0, needs_review TRUE and its record in
    the review table. *)
Theorem C7_one_record_per_row {U : UnicodeData} {HU : UnicodeBasic U} :
  (forall rows,
     crosswalk (main_loop rows) = map crosswalk_of rows /\
     length (crosswalk (main_loop rows)) = length rows /\
     review (main_loop rows)
     = map review_of (filter (fun r => row_needs_review r = true) rows) /\
     Forall (fun v => rv_reason v = u "low_confidence_or_unmatched")
            (review (main_loop rows))) /\
  (forall r,
     cw_needs_review (crosswalk_of r) = u "TRUE" <->
     row_needs_review r = true) /\
  row_hint row_unclassifiable = [] /\
  row_resolve row_unclassifiable = ([], 0.0%float) /\
  cw_confidence (crosswalk_of row_unclassifiable) = u "0.00" /\
  cw_needs_review (crosswalk_of row_unclassifiable) = u "TRUE" /\
  review (main_loop [row_unclassifiable])
  = [ {| rv_alias_name := u "random unclassifiable string";
         rv_alias_slug := [];
         rv_eco_code := u "Z99";
         rv_reason := u "low_confidence_or_unmatched" |} ].
Proof.
  split; [|split].
  - intros rows. rewrite main_loop_crosswalk, main_loop_review.
    repeat split.
    + apply length_map.
    + apply List.Forall_map, Forall_forall. reflexivity.
  - intros r. rewrite crosswalk_of_needs_review.
    destruct (row_needs_review r); split; auto; discriminate.
  - assert (Hr : row_resolve row_unclassifiable = ([], 0.0%float)).
    { destruct (crosswalk_of_basic row_unclassifiable) as [_ ->];
        vm_compute; reflexivity. }
    assert (Hn : row_needs_review row_unclassifiable = true).
    { unfold row_needs_review. rewrite Hr. reflexivity. }
    rewrite crosswalk_of_needs_review, crosswalk_of_confidence,
      main_loop_review, Hn, Hr.
    rewrite filter_cons_True by exact Hn.
    repeat split; vm_compute; reflexivity.
Qed.

Lemma C7_one_record_per_row_witness :
  UnicodeBasic BasicLatin /\
  cw_needs_review (@crosswalk_of BasicLatin row_unclassifiable) = u "TRUE".
Proof.
  split; [exact BasicLatin_basic|].
  exact (proj1 (proj2 (proj2 (proj2 (proj2 (proj2
           (@C7_one_record_per_row BasicLatin BasicLatin_basic))))))).
Defined.

(** C8: for every non-empty key carried by some crosswalk record, the
    mapping of family counts holds the number of crosswalk records with
    exactly that key, whatever their review flag, and the family table has
    exactly one row for the key; the empty key, and a key no record
    carries, has no count and no row. *)
Theorem C8_family_counts {U : UnicodeData} (rows : list row) (k : pystr) :
  let t := main_loop rows in
  (k <> [] ->
   (exists c, c ∈ crosswalk t /\ cw_canonical_family_key c = k) ->
   families t !! k = Some (key_count k (crosswalk t)) /\
   length (rows_for k (family_rows (families t))) = 1%nat) /\
  (k = [] \/
   ~ (exists c, c ∈ crosswalk t /\ cw_canonical_family_key c = k) ->
   families t !! k = None /\
   length (rows_for k (family_rows (families t))) = 0%nat) /\
  key_count k (crosswalk t)
  = length (filter (fun r => fst (row_resolve r) = k) rows).
Proof.
  cbv zeta. split; [|split].
  - intros Hk Hc. apply key_count_pos in Hc. apply truthy_cons in Hk.
    assert (E : families (main_loop rows) !! k
                = Some (key_count k (crosswalk (main_loop rows)))).
    { rewrite main_loop_tally. unfold tally. rewrite Hk.
      destruct (key_count _ _); [lia|reflexivity]. }
    split; [exact E|]. rewrite family_rows_for, decide_True; eauto.
  - intros Hk.
    assert (E : families (main_loop rows) !! k = None).
    { rewrite main_loop_tally. unfold tally. destruct Hk as [->|Hk]; auto.
      destruct (truthy k); auto.
      destruct (key_count k _) eqn:Ec; auto.
      exfalso. apply Hk, key_count_pos. lia. }
    split; [exact E|]. rewrite family_rows_for, decide_False; auto.
    rewrite E. now intros [? ?].
  - rewrite main_loop_crosswalk. unfold key_count.
    induction rows as [|r rows IH]; simpl; auto.
    destruct (decide (fst (row_resolve r) = k)) as [E|E].
    + rewrite !filter_cons_True; auto; [|now rewrite crosswalk_of_key].
      simpl. now rewrite IH.
    + rewrite !filter_cons_False; auto. now rewrite crosswalk_of_key.
Qed.

Lemma C8_family_counts_witness :
  let rows := [row_b44; row_b06; row_unclassifiable; row_b06] in
  let t := @main_loop BasicLatin rows in
  families t !! u "pirc-modern" = Some 2%nat /\
  length (rows_for (u "pirc-modern")
            (@family_rows BasicLatin (families t))) = 1%nat /\
  length (review t) = 3%nat.
Proof.
  cbv zeta.
  set (rows := [row_b44; row_b06; row_unclassifiable; row_b06]).
  assert (Hk : u "pirc-modern" <> []) by discriminate.
  assert (Hc : exists c,
    c ∈ crosswalk (@main_loop BasicLatin rows) /\
    cw_canonical_family_key c = u "pirc-modern").
  { exists (@crosswalk_of BasicLatin row_b06). split.
    - rewrite main_loop_crosswalk. apply list_elem_of_further.
      apply list_elem_of_here.
    - vm_compute. reflexivity. }
  destruct (proj1 (@C8_family_counts BasicLatin rows (u "pirc-modern"))
              Hk Hc) as [H1 H2].
  split; [|split; [exact H2|]].
  - rewrite H1. f_equal.
  - rewrite main_loop_review. vm_compute. reflexivity.
Defined.

Lemma str_replace_char a b s :
  str_replace [a] [b] s = map (fun c => if (c =? a)%N then b else c) s.
Proof.
  unfold str_replace. induction s as [|c s IH]; [reflexivity|].
  cbn [replace_from starts_with length Nat.pred map].
  rewrite andb_true_r, (N.eqb_sym a c).
  destruct (c =? a)%N; cbn [app]; now rewrite IH.
Qed.

Lemma quotes_straightened s :
  str_replace [0xB4%N] (u "'")
    (str_replace (u "`") (u "'") (str_replace [0x2019%N] (u "'") s))
  = map straight_quote s.
Proof.
  change (u "'") with [ch "'"]. change (u "`") with [ch "`"].
  rewrite !str_replace_char, !map_map. apply map_ext. intros c.
  unfold straight_quote.
  destruct (N.eqb_spec c 0x2019) as [->|H1]; [reflexivity|].
  destruct (N.eqb_spec c (ch "`")) as [->|H2]; [reflexivity|].
  cbn [orb]. reflexivity.
Qed.

Lemma straight_quote_twice c :
  straight_quote (straight_quote c) = straight_quote c.
Proof.
  unfold straight_quote.
  destruct (N.eqb_spec c 0x2019) as [->|H1]; [reflexivity|].
  destruct (N.eqb_spec c (ch "`")) as [->|H2]; [reflexivity|].
  destruct (N.eqb_spec c 0xB4) as [->|H3]; [reflexivity|].
  cbn [orb]. rewrite (proj2 (N.eqb_neq c 0x2019) H1).
  rewrite (proj2 (N.eqb_neq c (ch "`")) H2).
  now rewrite (proj2 (N.eqb_neq c 0xB4) H3).
Qed.

Lemma straight_quote_basic s :
  forallb basic s = true -> forallb basic (map straight_quote s) = true.
Proof.
  induction s as [|c s IH]; cbn [forallb map]; auto.
  intros [Hc Hs]%andb_true_iff. rewrite (IH Hs), andb_true_r.
  unfold straight_quote. now destruct (_ || _).
Qed.

Lemma straight_quote_upper c :
  basic_upper (straight_quote c) = straight_quote (basic_upper c).
Proof.
  unfold straight_quote, basic_upper, in_range.
  change (ch "a") with 97. change (ch "z") with 122.
  change (ch "`") with 96. change (ch "'") with 39.
  destruct (N.eqb_spec c 0x2019) as [->|H1]; [reflexivity|].
  destruct (N.eqb_spec c 96) as [->|H2]; [reflexivity|].
  destruct (N.eqb_spec c 0xB4) as [->|H3]; [reflexivity|].
  cbn [orb].
  destruct (N.leb_spec 97 c), (N.leb_spec c 122); cbn [andb].
  - destruct (N.eqb_spec (c - 32) 0x2019); [lia|].
    destruct (N.eqb_spec (c - 32) 96); [lia|].
    destruct (N.eqb_spec (c - 32) 0xB4); [lia|]. reflexivity.
  - rewrite (proj2 (N.eqb_neq c 0x2019) H1), (proj2 (N.eqb_neq c 96) H2).
    now rewrite (proj2 (N.eqb_neq c 0xB4) H3).
  - rewrite (proj2 (N.eqb_neq c 0x2019) H1), (proj2 (N.eqb_neq c 96) H2).
    now rewrite (proj2 (N.eqb_neq c 0xB4) H3).
  - rewrite (proj2 (N.eqb_neq c 0x2019) H1), (proj2 (N.eqb_neq c 96) H2).
    now rewrite (proj2 (N.eqb_neq c 0xB4) H3).
Qed.

(** A text without apostrophe is the straightened form of itself only. *)
Lemma straight_quote_sentinel s :
  map straight_quote s = u "#N/A" <-> s = u "#N/A".
Proof.
  assert (H : forall c d, In d (u "#N/A") -> straight_quote c = d -> c = d).
  { intros c d Hd. unfold straight_quote.
    destruct (_ || _); [|auto]. intros <-.
    cbn in Hd. repeat (destruct Hd as [Hd|Hd]; [discriminate Hd|]).
    destruct Hd. }
  split.
  - generalize (u "#N/A") H. clear H. induction s as [|c s IH];
      intros [|d t] H; cbn [map]; try discriminate; auto.
    intros [= Hc Hs]. f_equal.
    + apply H; [now left|exact Hc].
    + apply (IH t); auto. intros c' d' Hd'. apply H. now right.
  - intros ->. reflexivity.
Qed.

Lemma slugify_hint_quotes {U : UnicodeData} h1 h2 :
  map straight_quote (nfkd h1) = map straight_quote (nfkd h2) ->
  slugify_hint h1 = slugify_hint h2.
Proof.
  intros H. unfold slugify_hint. now rewrite !quotes_straightened, H.
Qed.

(** C9: the hint slug does not depend on how an apostrophe is spelled.
    Two hints whose NFKD forms differ only in the glyphs U+2019, grave
    accent, U+00B4 and plain apostrophe have the same slug; so an ASCII or
    U+2019 hint and the same hint with every such glyph written as a plain
    apostrophe get the same slug and resolve alike for every name and
    eco_code.  "Queen’s Gambit" with U+2019 and "Queen's Gambit" both give
    "queens-gambit" and resolve to it; "Queen’s" at the end of a hint
    gives "queens". *)
Theorem C9_apostrophe_spellings {U : UnicodeData} {HU : UnicodeBasic U} :
  slugify_hint curly_queens_gambit = u "queens-gambit" /\
  slugify_hint (u "Queen's Gambit") = u "queens-gambit" /\
  (forall name eco,
    resolve name eco curly_queens_gambit = (u "queens-gambit", 0.90%float) /\
    resolve name eco (u "Queen's Gambit") = (u "queens-gambit", 0.90%float)) /\
  (forall h1 h2,
    map straight_quote (nfkd h1) = map straight_quote (nfkd h2) ->
    slugify_hint h1 = slugify_hint h2) /\
  (forall h, forallb basic h = true ->
    slugify_hint (map straight_quote h) = slugify_hint h /\
    forall name eco,
      resolve name eco (map straight_quote h) = resolve name eco h) /\
  slugify_hint (u "Queen" ++ [0x2019%N] ++ u "s") = u "queens" /\
  slugify_hint (u "Queen's") = u "queens".
Proof.
  assert (H1 : slugify_hint curly_queens_gambit = u "queens-gambit").
  { rewrite slugify_hint_basic by reflexivity. vm_compute. reflexivity. }
  assert (H2 : slugify_hint (u "Queen's Gambit") = u "queens-gambit").
  { rewrite slugify_hint_basic by reflexivity. vm_compute. reflexivity. }
  assert (Hg : forall h, forallb basic h = true ->
                 slugify_hint (map straight_quote h) = slugify_hint h).
  { intros h Hb. apply slugify_hint_quotes.
    rewrite (nfkd_basic _ (straight_quote_basic h Hb)), (nfkd_basic h Hb).
    rewrite map_map. apply map_ext, straight_quote_twice. }
  split; [exact H1|split; [exact H2|]]. split; [|split; [|split; [|split]]].
  - intros name eco. split.
    + rewrite resolve_hint, H1; auto.
      * rewrite hint_applies_basic by reflexivity. reflexivity.
      * now rewrite H1.
    + rewrite resolve_hint, H2; auto.
      * rewrite hint_applies_basic by reflexivity. reflexivity.
      * now rewrite H2.
  - exact (@slugify_hint_quotes U).
  - intros h Hb. split; [exact (Hg h Hb)|]. intros name eco.
    unfold resolve. rewrite (Hg h Hb).
    assert (Ha : hint_applies (map straight_quote h) = hint_applies h).
    { unfold hint_applies, str_eqb.
      rewrite (upper_basic _ (straight_quote_basic h Hb)), (upper_basic h Hb).
      f_equal; [now destruct h|]. f_equal.
      rewrite map_map.
      rewrite (map_ext _ _ straight_quote_upper), <- map_map.
      apply bool_decide_ext, straight_quote_sentinel. }
    now rewrite Ha.
  - rewrite slugify_hint_basic by reflexivity. vm_compute. reflexivity.
  - rewrite slugify_hint_basic by reflexivity. vm_compute. reflexivity.
Qed.

Lemma C9_apostrophe_spellings_witness :
  UnicodeBasic BasicLatin /\
  @slugify_hint BasicLatin curly_queens_gambit
  = @slugify_hint BasicLatin (u "Queen's Gambit") /\
  @slugify_hint BasicLatin (u "Bird" ++ [0x2019%N] ++ u "s")
  = @slugify_hint BasicLatin (u "Bird's").
Proof.
  split; [exact BasicLatin_basic|].
  destruct (@C9_apostrophe_spellings BasicLatin BasicLatin_basic)
    as (H1 & H2 & _ & _ & Hg & _).
  split.
  - rewrite H1, H2. reflexivity.
  - symmetry.
    exact (proj1 (Hg (u "Bird" ++ [0x2019%N] ++ u "s") eq_refl)).
Defined.

(** C10: the notes field of a row's record is "inferred staunton under
    dutch" exactly when the lower-cased name has both "dutch" and
    "staunton" as whole words, and empty otherwise; it is the same for
    rows with the same name, and stays attached when the hint tier
    resolved the family. *)
Theorem C10_notes_from_name {U : UnicodeData} {HU : UnicodeBasic U}
    (r : row) :
  let both :=
    whole_word (u "dutch") (str_lower (row_name r)) /\
    whole_word (u "staunton") (str_lower (row_name r)) in
  (cw_notes (crosswalk_of r) = u "inferred staunton under dutch" <-> both) /\
  (cw_notes (crosswalk_of r) = [] <-> ~ both) /\
  (forall r', row_name r' = row_name r ->
              cw_notes (crosswalk_of r') = cw_notes (crosswalk_of r)) /\
  cw_canonical_family_key (crosswalk_of row_hinted) = u "queens-gambit" /\
  cw_notes (crosswalk_of row_hinted) = u "inferred staunton under dutch".
Proof.
  cbv zeta.
  assert (Hw : forall c, basic c = true -> @isword BasicLatin c = true ->
                         isword c = true).
  { intros c Hb Hc. now rewrite isword_basic. }
  assert (Hd : forall s, re_search RE_DUTCH s = true
                         <-> whole_word (u "dutch") s).
  { intros s. apply (word_pattern_search _ _ (ch "h")); auto. }
  assert (Hs : forall s, re_search RE_STAUNTON s = true
                         <-> whole_word (u "staunton") s).
  { intros s. apply (word_pattern_search _ _ (ch "n")); auto. }
  assert (Hk : cw_canonical_family_key (crosswalk_of row_hinted)
               = u "queens-gambit").
  { destruct (crosswalk_of_basic row_hinted) as [-> _];
      vm_compute; reflexivity. }
  assert (Hn : cw_notes (crosswalk_of row_hinted)
               = u "inferred staunton under dutch").
  { destruct (crosswalk_of_basic row_hinted) as [-> _];
      vm_compute; reflexivity. }
  split; [|split; [|split; [|split; [exact Hk|exact Hn]]]].
  - rewrite crosswalk_of_notes. unfold dutch_staunton_notes.
    rewrite <- Hd, <- Hs, <- andb_true_iff.
    destruct (_ && _); split; auto; discriminate.
  - rewrite crosswalk_of_notes. unfold dutch_staunton_notes.
    rewrite <- Hd, <- Hs, <- andb_true_iff.
    destruct (_ && _); split; auto; try discriminate.
    intros H. now elim H.
  - intros r' E. rewrite !crosswalk_of_notes. now rewrite E.
Qed.

Lemma C10_notes_from_name_witness :
  UnicodeBasic BasicLatin /\
  cw_notes (@crosswalk_of BasicLatin row_hinted)
  = u "inferred staunton under dutch".
Proof.
  split; [exact BasicLatin_basic|].
  exact (proj2 (proj2 (proj2 (proj2
           (@C10_notes_from_name BasicLatin BasicLatin_basic row_b44))))).
Defined.

Ltac search_as_basic U :=
  repeat match goal with
         | |- context [@re_search U ?r ?n] =>
             rewrite (re_search_basic r n) by reflexivity
         end.

Lemma confidence_never_095 {U : UnicodeData} name eco :
  snd (canonical_family name eco) <> 0.95%float.
Proof.
  destruct (canonical_family_cases name eco) as [(fam & _ & ->)|[_ ->]].
  - simpl. intros H. float_discr H.
  - destruct (eco_fallback_conf (str_strip (str_upper eco))) as [->|[_ H]].
    + simpl. intros H. float_discr H.
    + simpl in H. destruct H as [<-|[<-|[<-|[]]]]; intros H; float_discr H.
Qed.

(** C4: the name "Dutch Defense: Staunton Gambit" has both the word
    "dutch" and the word "staunton" in its lower-cased text, and the
    classifier returns "dutch-defense" for it with confidence 0.99, through
    the "dutch" rule of the ordered list; the combined rule after the list
    is never reached, and no name and eco_code get confidence 0.95. *)
Theorem C4_dutch_staunton_confidence {U : UnicodeData}
    {HU : UnicodeBasic U} :
  let name := u "Dutch Defense: Staunton Gambit" in
  let n := apply_synonyms (str_lower name) in
  re_search RE_DUTCH n = true /\
  re_search RE_STAUNTON n = true /\
  first_rule FAMILY_RULES n = Some (u "dutch-defense") /\
  canonical_family name [] = (u "dutch-defense", 0.99%float) /\
  (forall name' eco n',
     n' = apply_synonyms (str_lower name') ->
     re_search RE_DUTCH n' = true ->
     exists fam, canonical_family name' eco = (fam, 0.99%float)) /\
  (forall name' eco, snd (canonical_family name' eco) <> 0.95%float).
Proof.
  cbv zeta.
  rewrite (lower_basic (u "Dutch Defense: Staunton Gambit")) by reflexivity.
  rewrite canonical_family_basic by reflexivity.
  rewrite first_rule_basic by reflexivity. search_as_basic U.
  split; [|split; [|split; [|split; [|split]]]];
    try (vm_compute; reflexivity).
  - intros name' eco n' -> Hd.
    destruct (canonical_family_cases name' eco) as [(fam & _ & ->)|[Hn _]].
    + now exists fam.
    + apply no_rule_no_dutch in Hn. congruence.
  - apply confidence_never_095.
Qed.

Lemma C4_dutch_staunton_confidence_witness :
  UnicodeBasic BasicLatin /\
  @canonical_family BasicLatin (u "Dutch Defense: Staunton Gambit") []
  = (u "dutch-defense", 0.99%float).
Proof.
  split; [exact BasicLatin_basic|].
  exact (proj1 (proj2 (proj2 (proj2
           (@C4_dutch_staunton_confidence BasicLatin BasicLatin_basic))))).
Defined.

(** C5: the rule list has the pattern of "semi-slav-defense" and the
    pattern "modern benoni"; each is found in the lower-cased text of
    "Semi-Slav Defense", respectively "Modern Benoni"; yet the classifier
    returns "slav-defense" for the first name and "pirc-modern" for the
    second, the family of the generic rule that stands earlier in the
    list. *)
Theorem C5_generic_rule_first {U : UnicodeData} {HU : UnicodeBasic U} :
  In (RE_SEMI_SLAV, u "semi-slav-defense") FAMILY_RULES /\
  In (RE_MODERN_BENONI, u "benoni-defense") FAMILY_RULES /\
  re_search RE_SEMI_SLAV (apply_synonyms (str_lower (u "Semi-Slav Defense")))
  = true /\
  canonical_family (u "Semi-Slav Defense") []
  = (u "slav-defense", 0.99%float) /\
  re_search RE_MODERN_BENONI (apply_synonyms (str_lower (u "Modern Benoni")))
  = true /\
  canonical_family (u "Modern Benoni") [] = (u "pirc-modern", 0.99%float).
Proof.
  rewrite (lower_basic (u "Semi-Slav Defense")) by reflexivity.
  rewrite (lower_basic (u "Modern Benoni")) by reflexivity.
  rewrite (canonical_family_basic (u "Semi-Slav Defense") [])
    by reflexivity.
  rewrite (canonical_family_basic (u "Modern Benoni") []) by reflexivity.
  search_as_basic U.
  split; [|split; [|split; [|split; [|split]]]];
    try (vm_compute; reflexivity).
  - unfold FAMILY_RULES, RE_SEMI_SLAV. do 25 right. now left.
  - unfold FAMILY_RULES, RE_MODERN_BENONI. do 17 right. now left.
Qed.

Lemma C5_generic_rule_first_witness :
  UnicodeBasic BasicLatin /\
  @canonical_family BasicLatin (u "Semi-Slav Defense") []
  = (u "slav-defense", 0.99%float).
Proof.
  split; [exact BasicLatin_basic|].
  exact (proj1 (proj2 (proj2 (proj2
           (@C5_generic_rule_first BasicLatin BasicLatin_basic))))).
Defined.

(** * Further properties of the script *)

(** ** [acceptance_status] *)

Lemma starts_with_spec pre s :
  starts_with pre s = true <-> exists post, s = pre ++ post.
Proof.
  revert s. induction pre as [|c pre IH]; intros s; simpl.
  - split; eauto.
  - destruct s as [|d s].
    + split; [discriminate|]. intros [post E]. discriminate.
    + rewrite andb_true_iff, IH, N.eqb_eq. split.
      * intros [-> [post ->]]. eauto.
      * intros [post [= -> ->]]. eauto.
Qed.

Lemma str_contains_spec needle s :
  str_contains needle s = true <-> is_substring needle s.
Proof.
  unfold is_substring. induction s as [|c s IH]; simpl.
  - rewrite orb_false_r, starts_with_spec. split.
    + intros [post E]. now exists [], post.
    + intros ([|d pre] & post & E); [eauto|discriminate].
  - rewrite orb_true_iff, starts_with_spec, IH. split.
    + intros [[post E]|(pre & post & ->)].
      * now exists [], post.
      * now exists (c :: pre), post.
    + intros ([|d pre] & post & E).
      * left. eauto.
      * injection E as <- ->. right. eauto.
Qed.

(** X1: the acceptance status is "accepted" exactly when the lower-cased
    name contains "accepted"; it is "declined" exactly when it contains
    "declined" and not "accepted"; it is "neutral" exactly when it contains
    neither. *)
Theorem acceptance_status_substring {U : UnicodeData} (name : pystr) :
  let n := str_lower name in
  (acceptance_status name = u "accepted" <-> is_substring (u "accepted") n) /\
  (acceptance_status name = u "declined" <->
     is_substring (u "declined") n /\ ~ is_substring (u "accepted") n) /\
  (acceptance_status name = u "neutral" <->
     ~ is_substring (u "accepted") n /\ ~ is_substring (u "declined") n).
Proof.
  cbv zeta. unfold acceptance_status.
  rewrite <- !str_contains_spec.
  destruct (str_contains (u "accepted") (str_lower name));
    destruct (str_contains (u "declined") (str_lower name));
    repeat split; try discriminate; try congruence;
    intros; try tauto; intuition congruence.
Qed.

(** ** [normalize_text] and [read_rows] *)

Lemma lstrip_by_split p s :
  exists pre, s = pre ++ lstrip_by p s /\ Forall (fun c => p c = true) pre.
Proof.
  induction s as [|c s (pre & E & H)]; simpl.
  - now exists [].
  - destruct (p c) eqn:Ec.
    + exists (c :: pre). split; [simpl; congruence|]. now constructor.
    + now exists [].
Qed.

Lemma lstrip_by_head p s c : head (lstrip_by p s) = Some c -> p c = false.
Proof.
  induction s as [|d s IH]; simpl; [discriminate|].
  destruct (p d) eqn:Ed; auto. simpl. now intros [= <-].
Qed.

Lemma lstrip_by_last p s c : last (lstrip_by p s) = Some c -> last s = Some c.
Proof.
  destruct (lstrip_by_split p s) as (pre & E & _). intros H.
  rewrite E, last_app, H. reflexivity.
Qed.

Lemma head_rev (s : pystr) : head (rev s) = last s.
Proof.
  induction s as [|c s IH]; simpl; auto.
  rewrite last_cons, <- IH. now destruct (rev s).
Qed.

Lemma last_rev (s : pystr) : last (rev s) = head s.
Proof. rewrite <- (rev_involutive s) at 2. now rewrite head_rev. Qed.

Lemma strip_by_ends p s :
  (forall c, head (strip_by p s) = Some c -> p c = false) /\
  (forall c, last (strip_by p s) = Some c -> p c = false).
Proof.
  unfold strip_by, rstrip_by. split; intros c.
  - rewrite head_rev. intros H. apply lstrip_by_last in H.
    rewrite last_rev in H. now apply lstrip_by_head in H.
  - rewrite last_rev. apply lstrip_by_head.
Qed.

Lemma strip_by_fixed p s :
  (forall c, head s = Some c -> p c = false) ->
  (forall c, last s = Some c -> p c = false) ->
  strip_by p s = s.
Proof.
  intros Hh Hl.
  assert (L : forall t, (forall c, head t = Some c -> p c = false) ->
                        lstrip_by p t = t).
  { intros [|c t] H; simpl; auto. now rewrite (H c eq_refl). }
  unfold strip_by, rstrip_by. rewrite (L s Hh), L, rev_involutive; auto.
  intros c. rewrite head_rev. apply Hl.
Qed.

Lemma normalize_text_trimmed {U : UnicodeData} value :
  trimmed (normalize_text value).
Proof. apply strip_by_ends. Qed.

(** X2: every cell of every row that [read_rows] yields, the added
    "__source_file" apart, neither begins nor ends with whitespace, and
    stripping it again changes nothing. *)
Theorem read_rows_cells_trimmed {U : UnicodeData}
    (files : list (pystr * list (gmap pystr (option pystr))))
    (r : row) (k v : pystr) :
  r ∈ read_rows files -> k <> u "__source_file" -> r !! k = Some v ->
  trimmed v /\ str_strip v = v.
Proof.
  intros Hr Hk Hv. apply list_elem_of_In in Hr. unfold read_rows in Hr.
  apply in_flat_map in Hr as (f & _ & Hr).
  apply in_map_iff in Hr as (raw & <- & _).
  rewrite lookup_insert_ne in Hv by congruence.
  rewrite lookup_fmap in Hv.
  destruct (raw !! k) as [cell|]; [|discriminate]. injection Hv as <-.
  pose proof (normalize_text_trimmed cell) as [Hh Hl].
  split; [now split|]. now apply strip_by_fixed.
Qed.

Lemma read_rows_cells_trimmed_witness :
  let r : row := <[u "__source_file" := u "a.csv"]>
                   (@normalize_text BasicLatin <$> raw_ruy) in
  r !! u "name" = Some (u "Ruy Lopez") /\
  @trimmed BasicLatin (u "Ruy Lopez").
Proof.
  cbv zeta.
  assert (Hv : (<[u "__source_file" := u "a.csv"]>
                  (@normalize_text BasicLatin <$> raw_ruy) : row)
               !! u "name" = Some (u "Ruy Lopez")).
  { rewrite lookup_insert_ne by discriminate.
    unfold raw_ruy. rewrite lookup_fmap, lookup_insert_eq. reflexivity. }
  split; [exact Hv|].
  refine (proj1 (@read_rows_cells_trimmed BasicLatin files_example
            _ (u "name") (u "Ruy Lopez") _ _ Hv)).
  - simpl. apply list_elem_of_here.
  - discriminate.
Defined.

Lemma stamped_row_source {U : UnicodeData} (fname : pystr)
    (raw : gmap pystr (option pystr)) :
  cw_source (crosswalk_of (<[u "__source_file" := fname]>
                             (normalize_text <$> raw)))
  = fname.
Proof.
  unfold crosswalk_of. destruct (row_resolve _). cbn [cw_source].
  now rewrite lookup_insert_eq.
Qed.

(** X3: the source column of the crosswalk is, row by row, the base name
    of the very file the row was read from: each file's name stands there
    once for each of its rows, file after file (a CSV column named
    "__source_file" is overwritten), so the default "split" is never
    written for a row that was read; the cells of the row are the
    normalized cells of the CSV row.  There are as many rows as the files
    hold together. *)
Theorem read_rows_source {U : UnicodeData}
    (files : list (pystr * list (gmap pystr (option pystr)))) :
  map (fun r => cw_source (crosswalk_of r)) (read_rows files)
  = flat_map (fun f => replicate (length (snd f)) (fst f)) files /\
  map cw_source (crosswalk (main_loop (read_rows files)))
  = flat_map (fun f => replicate (length (snd f)) (fst f)) files /\
  (forall before f after raws raw raws',
     files = before ++ f :: after -> snd f = raws ++ raw :: raws' ->
     exists r,
       read_rows files !! (length (read_rows before) + length raws)%nat
       = Some r /\
       cw_source (crosswalk_of r) = fst f /\
       forall k, k <> u "__source_file" ->
                 r !! k = normalize_text <$> raw !! k) /\
  (forall r, r ∈ read_rows files ->
     exists f, f ∈ files /\ cw_source (crosswalk_of r) = fst f) /\
  length (read_rows files)
  = list_sum (map (fun f => length (snd f)) files).
Proof.
  assert (H1 : map (fun r => cw_source (crosswalk_of r)) (read_rows files)
               = flat_map (fun f => replicate (length (snd f)) (fst f))
                          files).
  { unfold read_rows. induction files as [|[fname raws] files IH];
      [reflexivity|].
    cbn [flat_map fst snd]. rewrite map_app, IH. f_equal.
    clear IH. induction raws as [|raw raws IH]; [reflexivity|].
    cbn [map length replicate]. now rewrite stamped_row_source, IH. }
  split; [exact H1|]. split; [|split; [|split]].
  - rewrite main_loop_crosswalk, map_map. exact H1.
  - intros before [fname raws0] after raws raw raws' -> Hf.
    cbn [snd fst] in *. subst raws0.
    exists (<[u "__source_file" := fname]> (normalize_text <$> raw)).
    split; [|split].
    + rewrite read_rows_app. rewrite lookup_app_r by lia.
      replace (length (read_rows before) + length raws
               - length (read_rows before))%nat with (length raws) by lia.
      unfold read_rows at 1. cbn [flat_map fst snd].
      rewrite map_app. cbn [map]. rewrite <- app_assoc.
      rewrite lookup_app_r by (rewrite length_map; lia).
      rewrite length_map, Nat.sub_diag. reflexivity.
    + apply stamped_row_source.
    + intros k Hk. rewrite lookup_insert_ne by congruence.
      apply lookup_fmap.
  - intros r Hr. apply list_elem_of_In in Hr. unfold read_rows in Hr.
    apply in_flat_map in Hr as (f & Hf & Hr).
    apply in_map_iff in Hr as (raw & <- & _).
    exists f. split; [now apply list_elem_of_In|].
    apply stamped_row_source.
  - clear H1. unfold read_rows.
    induction files as [|f files IH]; [reflexivity|].
    cbn [flat_map map]. rewrite length_app, length_map, IH. reflexivity.
Qed.

(** ** The slug of a family hint *)

Section Hyphenate.
Context {U : UnicodeData}.

Let not_alnum (c : N) : bool := negb (ascii_alnum c).

Lemma set_has_alnum c :
  set_has [CRange (ch "A") (ch "Z"); CRange (ch "a") (ch "z");
           CRange (ch "0") (ch "9")] c = ascii_alnum c.
Proof.
  unfold set_has, ascii_alnum. simpl.
  now rewrite orb_false_r, orb_assoc.
Qed.

Lemma lstrip_by_length p s : (length (lstrip_by p s) <= length s)%nat.
Proof.
  induction s as [|c s IH]; simpl; auto. destruct (p c); simpl; lia.
Qed.

Lemma star_loop_S (step : pos -> list pos) n p :
  star_loop step (S n) p
  = flat_map (fun q => if (length (snd q) <? length (snd p))%nat
                       then star_loop step n q else [])
             (step p) ++ [p].
Proof. reflexivity. Qed.

Lemma one_char_cons ok prev c t :
  one_char ok (prev, c :: t) = if ok c then [(Some c, t)] else [].
Proof. reflexivity. Qed.

(** The first way a greedy loop of single characters stops: past the
    whole run. *)
Lemma star_loop_first (step : pos -> list pos) ok :
  (forall p, step p = one_char ok p) ->
  forall n prev s,
    (length s <= n)%nat ->
    exists q qs, star_loop step n (prev, s) = q :: qs /\
                 snd q = lstrip_by ok s.
Proof.
  intros Hstep. induction n as [|n IH]; intros prev s Hn.
  - destruct s; [|simpl in Hn; lia]. now exists (prev, []), [].
  - destruct s as [|c t].
    + rewrite star_loop_S, Hstep. now exists (prev, []), [].
    + simpl in Hn. rewrite star_loop_S, Hstep, one_char_cons.
      cbn [lstrip_by]. destruct (ok c).
      * cbn [flat_map snd].
        destruct (Nat.ltb_spec (length t) (length (c :: t))) as [_|H];
          [|simpl in H; lia].
        destruct (IH (Some c) t) as (q & qs & E & Hq); [lia|].
        rewrite E. exists q, ((qs ++ []) ++ [(prev, c :: t)]). now split.
      * now exists (prev, c :: t), [].
Qed.

Lemma not_in_alnum_step p :
  exec (NotIn [CRange (ch "A") (ch "Z"); CRange (ch "a") (ch "z");
               CRange (ch "0") (ch "9")]) p
  = one_char not_alnum p.
Proof.
  destruct p as [prev [|c s]]; auto. cbn [exec].
  rewrite !one_char_cons, set_has_alnum. reflexivity.
Qed.

Lemma run_exec prev c t :
  (ascii_alnum c = true -> exec RE_NON_ALNUM_RUN (prev, c :: t) = []) /\
  (ascii_alnum c = false ->
   exists q qs, exec RE_NON_ALNUM_RUN (prev, c :: t) = q :: qs /\
                snd q = lstrip_by not_alnum t).
Proof.
  assert (E : exec RE_NON_ALNUM_RUN (prev, c :: t)
              = flat_map
                  (star_loop
                     (exec (NotIn [CRange (ch "A") (ch "Z");
                                   CRange (ch "a") (ch "z");
                                   CRange (ch "0") (ch "9")]))
                     (length (c :: t)))
                  (one_char not_alnum (prev, c :: t))).
  { unfold RE_NON_ALNUM_RUN. cbn [exec snd]. f_equal.
    rewrite !one_char_cons, set_has_alnum. reflexivity. }
  rewrite E, one_char_cons. unfold not_alnum at 1 2.
  split; intros ->; cbn [negb flat_map].
  - reflexivity.
  - destruct (star_loop_first _ not_alnum not_in_alnum_step
                (length (c :: t)) (Some c) t)
      as (q & qs & Eq & Hq); [simpl; lia|].
    rewrite Eq. exists q, (qs ++ []). now split.
Qed.

Lemma sub_from_skip r repl : forall pre prev s,
  sub_from r repl (length pre) prev (pre ++ s)
  = sub_from r repl O (prev_after prev pre) s.
Proof.
  induction pre as [|c pre IH]; intros prev s.
  - reflexivity.
  - cbn [length app sub_from]. rewrite IH. now rewrite prev_after_cons.
Qed.

Lemma hyphenate_run t :
  hyphenate true t = hyphenate false (lstrip_by not_alnum t).
Proof.
  induction t as [|c t IH]; auto. cbn [hyphenate lstrip_by].
  unfold not_alnum at 1. destruct (ascii_alnum c) eqn:E; cbn [negb]; auto.
  cbn [hyphenate]. now rewrite E.
Qed.

Lemma sub_run_hyphenate : forall n s prev,
  (length s <= n)%nat ->
  sub_from RE_NON_ALNUM_RUN (u "-") O prev s = hyphenate false s.
Proof.
  induction n as [|n IH]; intros s prev Hn.
  - destruct s; [reflexivity|simpl in Hn; lia].
  - destruct s as [|c t]; [reflexivity|]. simpl in Hn.
    cbn [sub_from hyphenate].
    destruct (run_exec prev c t) as [Ha Hr].
    destruct (ascii_alnum c) eqn:E.
    + rewrite (Ha eq_refl). f_equal. apply IH. lia.
    + destruct (Hr eq_refl) as (q & qs & -> & Hq). rewrite Hq.
      destruct (lstrip_by_split not_alnum t) as (pre & Et & _).
      pose proof (lstrip_by_length not_alnum t) as Hl.
      assert (Ek : (length (c :: t) - length (lstrip_by not_alnum t))%nat
                   = S (length pre)).
      { rewrite Et at 1. cbn [length]. rewrite length_app. lia. }
      rewrite Ek. cbn [app u]. f_equal.
      rewrite Et at 1. rewrite sub_from_skip, IH by lia.
      now rewrite hyphenate_run.
Qed.

Lemma re_sub_runs (s : pystr) :
  re_sub RE_NON_ALNUM_RUN (u "-") s = hyphenate false s.
Proof. apply (sub_run_hyphenate (length s)). lia. Qed.

Lemma hyphenate_keeps_alnum s : forall b,
  List.filter ascii_alnum (hyphenate b s) = List.filter ascii_alnum s.
Proof.
  induction s as [|c s IH]; intros b; cbn [hyphenate]; auto.
  destruct (ascii_alnum c) eqn:E.
  - cbn [List.filter]. now rewrite E, IH.
  - cbn [List.filter]. rewrite E. destruct b; [apply IH|].
    cbn [List.filter]. change (ascii_alnum (ch "-")) with false. apply IH.
Qed.


End Hyphenate.

Section KeyShape.

Lemma alnum_is_basic c : ascii_alnum c = true -> basic c = true.
Proof.
  unfold ascii_alnum, basic, in_range.
  change (ch "A") with 65. change (ch "Z") with 90.
  change (ch "a") with 97. change (ch "z") with 122.
  change (ch "0") with 48. change (ch "9") with 57.
  intros H. apply orb_true_iff. left. apply N.ltb_lt.
  repeat (apply orb_true_iff in H as [H|H]);
    apply andb_true_iff in H as [_ H]; apply N.leb_le in H; lia.
Qed.

Lemma alnum_lowered c :
  ascii_alnum c = true ->
  (basic_lower c =? ch "-") = false /\ lower_alnum (basic_lower c) = true.
Proof.
  unfold ascii_alnum, lower_alnum, basic_lower, in_range.
  change (ch "A") with 65. change (ch "Z") with 90.
  change (ch "a") with 97. change (ch "z") with 122.
  change (ch "0") with 48. change (ch "9") with 57.
  change (ch "-") with 45.
  intros H.
  destruct (N.leb_spec 65 c), (N.leb_spec c 90); cbn [andb] in *.
  - split; [apply N.eqb_neq; lia|].
    apply orb_true_iff. left. apply andb_true_iff.
    split; apply N.leb_le; lia.
  - cbn [orb] in H. split.
    + apply N.eqb_neq. intros ->. discriminate H.
    + exact H.
  - cbn [orb] in H. split.
    + apply N.eqb_neq. intros ->. discriminate H.
    + exact H.
  - cbn [orb] in H. split.
    + apply N.eqb_neq. intros ->. discriminate H.
    + exact H.
Qed.

Lemma hyphenate_basic b s : forallb basic (hyphenate b s) = true.
Proof.
  revert b. induction s as [|c s IH]; intros b; simpl; auto.
  destruct (ascii_alnum c) eqn:E.
  - simpl. now rewrite (alnum_is_basic c E), IH.
  - destruct b; simpl; auto.
Qed.

Lemma hyphenate_single b s :
  single_hyphens b (map basic_lower (hyphenate b s)) = true.
Proof.
  revert b. induction s as [|c s IH]; intros b; cbn [hyphenate]; auto.
  destruct (ascii_alnum c) eqn:E.
  - cbn [map single_hyphens].
    destruct (alnum_lowered c E) as [-> ->]. apply IH.
  - destruct b; [apply IH|].
    cbn [map]. change (basic_lower (ch "-")) with (ch "-").
    cbn [single_hyphens]. rewrite N.eqb_refl. apply IH.
Qed.

Lemma single_hyphens_lstrip b s :
  single_hyphens b s = true ->
  single_hyphens true (lstrip_by is_hyphen s) = true.
Proof.
  revert b. induction s as [|c s IH]; intros b; cbn [single_hyphens lstrip_by];
    auto.
  unfold is_hyphen at 1. destruct (c =? ch "-") eqn:E.
  - intros [_ H]%andb_true_iff. eapply IH, H.
  - intros H. cbn [single_hyphens]. now rewrite E.
Qed.

Lemma single_hyphens_prefix x y : forall b,
  single_hyphens b (x ++ y) = true -> single_hyphens b x = true.
Proof.
  induction x as [|c x IH]; intros b; cbn [app single_hyphens]; auto.
  destruct (c =? ch "-").
  - intros [-> H]%andb_true_iff. cbn [andb]. eauto.
  - intros [-> H]%andb_true_iff. cbn [andb]. eauto.
Qed.

Lemma rstrip_by_prefix p s : exists suf, s = rstrip_by p s ++ suf.
Proof.
  unfold rstrip_by. destruct (lstrip_by_split p (rev s)) as (pre & E & _).
  exists (rev pre). rewrite <- rev_app_distr, <- E. now rewrite rev_involutive.
Qed.

Lemma single_hyphens_slug s : forall b,
  single_hyphens b s = true -> s <> [] ->
  (forall c, last s = Some c -> is_hyphen c = false) ->
  slug_from b s = true.
Proof.
  induction s as [|c s IH]; intros b Hs Hne Hl; [congruence|].
  cbn [single_hyphens slug_from] in *.
  destruct s as [|d s].
  - pose proof (Hl c eq_refl) as Hc. unfold is_hyphen in Hc.
    rewrite Hc in *. cbn [slug_from single_hyphens negb] in *.
    now rewrite andb_true_r in Hs |- *.
  - assert (Hl' : forall c0, last (d :: s) = Some c0 -> is_hyphen c0 = false).
    { intros c0 H. apply Hl. now rewrite last_cons, H. }
    destruct (c =? ch "-").
    + apply andb_true_iff in Hs as [-> Hs]. cbn [andb]. apply IH; auto.
    + apply andb_true_iff in Hs as [-> Hs]. cbn [andb]. apply IH; auto.
Qed.

Lemma slug_from_app w t : forall b,
  slug_from b (w ++ t)
  = match slug_state b w with
    | Some b' => slug_from b' t
    | None => false
    end.
Proof.
  induction w as [|c w IH]; intros b; cbn [app slug_from slug_state]; auto.
  destruct (c =? ch "-").
  - destruct b; simpl; auto.
  - destruct (lower_alnum c); simpl; auto.
Qed.

Lemma replace_from_skip old new : forall pre s,
  replace_from old new (length pre) (pre ++ s) = replace_from old new O s.
Proof.
  induction pre as [|c pre IH]; intros s; [reflexivity|].
  cbn [length app replace_from]. apply IH.
Qed.

Lemma replace_from_cons old new c t :
  replace_from old new O (c :: t)
  = if starts_with old (c :: t)
    then new ++ replace_from old new (Nat.pred (length old)) t
    else c :: replace_from old new O t.
Proof. reflexivity. Qed.

(** Replacing a piece by one that leaves the reader of keys in the same
    place keeps a key a key. *)
Lemma str_replace_slug old new :
  (forall b b', slug_state b old = Some b' -> slug_state b new = Some b') ->
  forall n s b, (length s <= n)%nat ->
    slug_from b s = true -> slug_from b (str_replace old new s) = true.
Proof.
  intros Hon. destruct old as [|o old]; [auto|].
  unfold str_replace.
  induction n as [|n IH]; intros s b Hn Hs.
  - destruct s; [exact Hs|simpl in Hn; lia].
  - destruct s as [|c t]; [exact Hs|]. simpl in Hn.
    rewrite replace_from_cons.
    destruct (starts_with (o :: old) (c :: t)) eqn:E.
    + apply starts_with_spec in E as [post E].
      injection E as -> ->. cbn [length Nat.pred].
      rewrite replace_from_skip.
      change (o :: old ++ post) with ((o :: old) ++ post) in Hs.
      rewrite slug_from_app in Hs. rewrite slug_from_app.
      destruct (slug_state b (o :: old)) as [b'|] eqn:Eb; [|discriminate].
      rewrite (Hon b b' Eb). apply IH; auto.
      rewrite length_app in Hn. lia.
    + cbn [slug_from] in *. destruct (c =? ch "-").
      * apply andb_true_iff in Hs as [-> Hs]. cbn [andb]. apply IH; auto. lia.
      * apply andb_true_iff in Hs as [-> Hs]. cbn [andb]. apply IH; auto. lia.
Qed.

Lemma str_replace_key old new s :
  (forall b b', slug_state b old = Some b' -> slug_state b new = Some b') ->
  key_shaped s -> key_shaped (str_replace old new s).
Proof.
  intros Hon [->|Hs].
  - left. now destruct old.
  - right. apply (str_replace_slug old new Hon (length s)); auto.
Qed.

Lemma single_hyphens_no_double x y : forall b,
  single_hyphens b (x ++ u "--" ++ y) = false.
Proof.
  induction x as [|c x IH]; intros b; cbn [app single_hyphens].
  - cbn. now rewrite andb_false_r.
  - destruct (c =? ch "-"); rewrite IH; apply andb_false_r.
Qed.

End KeyShape.

(** X4: [re.sub(r"[^A-Za-z0-9]+", "-", s)] turns every maximal run of
    characters outside A-Z, a-z, 0-9 into one hyphen and keeps the other
    characters: the letters and digits of the result are those of [s], in
    order, and it has nothing else than single hyphens. *)
Theorem re_sub_non_alnum_runs {U : UnicodeData} (s : pystr) :
  re_sub RE_NON_ALNUM_RUN (u "-") s = hyphenate false s /\
  List.filter ascii_alnum (re_sub RE_NON_ALNUM_RUN (u "-") s)
  = List.filter ascii_alnum s /\
  Forall (fun c => ascii_alnum c = true \/ c = ch "-")
         (re_sub RE_NON_ALNUM_RUN (u "-") s) /\
  ~ is_substring (u "--") (re_sub RE_NON_ALNUM_RUN (u "-") s).
Proof.
  rewrite re_sub_runs. split; [reflexivity|]. split; [|split].
  - apply hyphenate_keeps_alnum.
  - assert (H : forall b, Forall (fun c => ascii_alnum c = true \/ c = ch "-")
                                 (hyphenate b s)); [|apply H].
    induction s as [|c s IH]; intros b; cbn [hyphenate].
    + constructor.
    + destruct (ascii_alnum c) eqn:E; [constructor; auto|].
      destruct b; [apply IH|]. constructor; auto.
  - intros (pre & post & E).
    pose proof (hyphenate_single false s) as H. rewrite E in H.
    rewrite !map_app in H. change (map basic_lower (u "--")) with (u "--") in H.
    now rewrite single_hyphens_no_double in H.
Qed.

Section KeyShapeOfRecords.
Context {U : UnicodeData}.

Lemma strip_hyphens_key m :
  single_hyphens false m = true -> key_shaped (strip_by is_hyphen m).
Proof.
  intros Hm. apply single_hyphens_lstrip in Hm.
  pose proof (proj2 (strip_by_ends is_hyphen m)) as Hl.
  unfold strip_by in *.
  destruct (rstrip_by_prefix is_hyphen (lstrip_by is_hyphen m)) as [suf E].
  rewrite E in Hm. apply single_hyphens_prefix in Hm.
  destruct (rstrip_by is_hyphen (lstrip_by is_hyphen m)) as [|c k] eqn:Ek.
  - now left.
  - right. apply single_hyphens_slug; auto; discriminate.
Qed.

Lemma slug_rewrites_keep_state :
  (forall b b', slug_state b (u "-s-") = Some b' ->
                slug_state b (u "s-") = Some b') /\
  (forall b b', slug_state b (u "-gambit-gambit") = Some b' ->
                slug_state b (u "-gambit") = Some b').
Proof. split; intros [] b'; vm_compute; congruence. Qed.

Lemma slugify_hint_key {HU : UnicodeBasic U} hint :
  key_shaped (slugify_hint hint).
Proof.
  unfold slugify_hint.
  destruct slug_rewrites_keep_state as [Hs Hg].
  apply str_replace_key; [exact Hg|].
  apply str_replace_key; [exact Hs|].
  apply str_replace_key; [exact Hs|].
  match goal with
  | |- context [re_sub (Plus ?r) (u "-") ?x] =>
      change (re_sub (Plus r) (u "-") x)
        with (re_sub RE_NON_ALNUM_RUN (u "-") x);
      rewrite (re_sub_runs x);
      rewrite (lower_basic _ (hyphenate_basic false x))
  end.
  apply strip_hyphens_key, hyphenate_single.
Qed.

Lemma family_rules_keys :
  Forall (fun rule => slug_from true (snd rule) = true) FAMILY_RULES.
Proof. repeat constructor. Qed.

Lemma eco_fallback_key eco : key_shaped (fst (eco_fallback eco)).
Proof.
  unfold eco_fallback.
  repeat match goal with
         | |- context [if ?b then _ else _] => destruct b
         end;
    solve [ now left | now right ].
Qed.

Lemma resolve_key {HU : UnicodeBasic U} name eco hint :
  key_shaped (fst (resolve name eco hint)).
Proof.
  destruct (hint_applies hint && truthy (slugify_hint hint)) eqn:E.
  - apply andb_true_iff in E as [E1 E2]. rewrite resolve_hint by assumption.
    apply slugify_hint_key.
  - rewrite resolve_no_hint by assumption.
    destruct (canonical_family_cases name eco) as [(fam & Hf & ->)|[_ ->]].
    + right. apply first_rule_in in Hf as [p Hp].
      pose proof family_rules_keys as HF. rewrite Forall_forall in HF.
      apply (HF (p, fam)), list_elem_of_In, Hp.
    + apply eco_fallback_key.
Qed.

Lemma slug_from_chars s : forall b,
  slug_from b s = true ->
  Forall (fun c => lower_alnum c = true \/ c = ch "-") s.
Proof.
  induction s as [|c s IH]; intros b; cbn [slug_from]; [constructor|].
  destruct (N.eqb_spec c (ch "-")) as [->|_].
  - intros [_ H]%andb_true_iff. constructor; eauto.
  - intros [Hc H]%andb_true_iff. constructor; eauto.
Qed.

Lemma slug_from_last s : forall b,
  slug_from b s = true -> last s <> Some (ch "-").
Proof.
  induction s as [|c s IH]; intros b; cbn [slug_from]; [discriminate|].
  rewrite last_cons. destruct s as [|d s].
  - cbn [slug_from last]. destruct (N.eqb_spec c (ch "-")) as [->|Hc].
    + now rewrite andb_false_r.
    + intros _ [= E]. apply Hc. exact E.
  - destruct (c =? ch "-"); intros [_ H]%andb_true_iff;
      apply IH in H; destruct (last (d :: s)) eqn:El; try exact H;
      rewrite last_cons in El; destruct (last s); discriminate.
Qed.

Lemma slug_from_no_double s : forall b,
  slug_from b s = true -> ~ is_substring (u "--") s.
Proof.
  intros b Hs (pre & post & ->). rewrite slug_from_app in Hs.
  destruct (slug_state b pre) as [b'|]; [|discriminate].
  cbn in Hs. now rewrite andb_false_r in Hs.
Qed.

(** X5: the family key of every record is empty or made of lower-case
    ASCII letters and digits in words joined by single hyphens (the shape
    [[a-z0-9]+(-[a-z0-9]+)*]): it has no other character, no hyphen first
    or last and no two hyphens in a row.  This holds for a key derived from
    any family hint as for the keys of the rule tables. *)
Theorem record_key_shape {HU : UnicodeBasic U} (r : row) :
  let key := cw_canonical_family_key (crosswalk_of r) in
  key_shaped (slugify_hint (row_hint r)) /\
  key_shaped key /\
  (key = [] \/
   Forall (fun c => lower_alnum c = true \/ c = ch "-") key /\
   head key <> Some (ch "-") /\
   last key <> Some (ch "-") /\
   ~ is_substring (u "--") key).
Proof.
  cbv zeta. rewrite crosswalk_of_key. unfold row_resolve.
  pose proof (resolve_key (row_name r) (row_eco r) (row_hint r)) as Hk.
  split; [apply slugify_hint_key|]. split; [exact Hk|].
  destruct Hk as [->|Hk]; [now left|right].
  repeat split.
  - eapply slug_from_chars, Hk.
  - destruct (fst (resolve _ _ _)) as [|c k]; [discriminate|].
    cbn [slug_from] in Hk. intros [= ->].
    now rewrite N.eqb_refl in Hk.
  - eapply slug_from_last, Hk.
  - eapply slug_from_no_double, Hk.
Qed.

End KeyShapeOfRecords.

Lemma record_key_shape_witness :
  UnicodeBasic BasicLatin /\
  cw_canonical_family_key (@crosswalk_of BasicLatin row_messy_hint)
  = u "kings-indian-e6x" /\
  key_shaped (cw_canonical_family_key
                (@crosswalk_of BasicLatin row_messy_hint)).
Proof.
  split; [exact BasicLatin_basic|]. split; [now vm_compute|].
  exact (proj1 (proj2 (@record_key_shape BasicLatin BasicLatin_basic
                         row_messy_hint))).
Defined.


(** ** Hints that give no key *)

Section HintWithoutKey.
Context {U : UnicodeData}.

Let non_alnum (c : N) : Prop := ascii_alnum c = false.

Lemma possessive_needs_s prev s :
  Forall non_alnum s -> exec (lit "'s" ~~ Bnd)%re (prev, s) = [].
Proof.
  intros Hs. unfold lit. cbn [exec].
  destruct (lit_match (u "'s") (prev, s)) as [q|] eqn:E; [|reflexivity].
  apply lit_match_spec in E as (post & Es & _). cbn [snd] in Es. subst s.
  apply Forall_cons in Hs as [_ Hs]. apply Forall_cons in Hs as [Hs _].
  discriminate Hs.
Qed.

Lemma possessive_sub_id s : forall prev,
  Forall non_alnum s ->
  sub_from (lit "'s" ~~ Bnd)%re (u "s") O prev s = s.
Proof.
  induction s as [|c s IH]; intros prev Hs.
  - cbn [sub_from]. unfold matches_at.
    now rewrite possessive_needs_s.
  - cbn [sub_from]. rewrite possessive_needs_s by exact Hs.
    f_equal. apply IH. now apply Forall_cons in Hs as [_ Hs].
Qed.

Lemma hyphenate_no_alnum s :
  Forall non_alnum s ->
  hyphenate true s = [] /\ (hyphenate false s = [] \/ hyphenate false s = u "-").
Proof.
  induction 1 as [|c s Hc Hs [IH _]]; cbn [hyphenate].
  - auto.
  - rewrite Hc, IH. auto.
Qed.

Lemma slugify_hint_no_alnum {HU : UnicodeBasic U} hint :
  Forall non_alnum (nfkd hint) -> slugify_hint hint = [].
Proof.
  intros H. unfold slugify_hint.
  set (h1 := str_replace _ _ (str_replace _ _ (str_replace _ _ (nfkd hint)))).
  assert (H1 : Forall non_alnum h1).
  { repeat (apply str_replace_keeps; [repeat constructor|]). exact H. }
  change (re_sub (lit "'s" ~~ Bnd) (u "s") h1)
    with (sub_from (lit "'s" ~~ Bnd)%re (u "s") O None h1).
  rewrite (possessive_sub_id h1 None H1).
  assert (H3 : Forall non_alnum (str_strip h1)) by now apply strip_by_keeps.
  match goal with
  | |- context [re_sub (Plus ?r) (u "-") ?x] =>
      change (re_sub (Plus r) (u "-") x)
        with (re_sub RE_NON_ALNUM_RUN (u "-") x);
      rewrite (re_sub_runs x)
  end.
  destruct (hyphenate_no_alnum _ H3) as [_ [->| ->]].
  - now rewrite (lower_basic []).
  - now rewrite (lower_basic (u "-")).
Qed.

(** X6: a family hint is passed over, and the row classified from its
    name and eco_code alone, when the hint is empty, when it is the
    sentinel "#N/A" in any ASCII letter case, and when its NFKD form has
    no ASCII letter or digit (its slug is then empty). *)
Theorem hint_without_key {HU : UnicodeBasic U} (name eco hint : pystr) :
  hint = [] \/
  (forallb basic hint = true /\ map basic_upper hint = u "#N/A") \/
  Forall (fun c => ascii_alnum c = false) (nfkd hint) ->
  resolve name eco hint = canonical_family name eco.
Proof.
  intros [->|[[Hb Hu]|Hn]]; apply resolve_no_hint.
  - reflexivity.
  - unfold hint_applies, str_eqb. rewrite (upper_basic hint Hb), Hu.
    rewrite bool_decide_eq_true_2 by reflexivity.
    now rewrite andb_false_r.
  - rewrite (slugify_hint_no_alnum hint Hn). apply andb_false_r.
Qed.

End HintWithoutKey.

Lemma hint_without_key_witness :
  UnicodeBasic BasicLatin /\
  Forall (fun c => ascii_alnum c = false) (@nfkd BasicLatin (u "???")) /\
  @row_resolve BasicLatin row_punct_hint = (u "french-defense", 0.99%float).
Proof.
  assert (H : Forall (fun c => ascii_alnum c = false)
                     (@nfkd BasicLatin (u "???")))
    by (repeat constructor).
  split; [exact BasicLatin_basic|]. split; [exact H|].
  unfold row_resolve.
  change (row_hint row_punct_hint) with (u "???").
  rewrite (@hint_without_key BasicLatin BasicLatin_basic
             (row_name row_punct_hint) (row_eco row_punct_hint) (u "???")
             (or_intror (or_intror H))).
  now vm_compute.
Defined.

(** ** Who is sent to review *)

Lemma eco_fallback_low_bands {U : UnicodeData} eco :
  truthy (fst (eco_fallback eco)) = true ->
  flt (snd (eco_fallback eco)) 0.85%float = true ->
  In (fst (eco_fallback eco))
     [u "pirc-modern"; u "open-games"; u "queens-gambit";
      u "catalan-opening"] /\
  snd (eco_fallback eco) = 0.80%float.
Proof.
  unfold eco_fallback.
  repeat match goal with
         | |- context [if ?b then _ else _] => destruct b
         end;
    cbn [fst snd]; intros Ht H; try discriminate Ht;
    try (vm_compute in H; discriminate H);
    (split; [cbn [In]; auto 10|reflexivity]).
Qed.

(** X7: a record is flagged for review only when neither the hint nor a
    name pattern gave its key: its key then comes from the ECO bands with
    confidence 0.80 ("pirc-modern", "open-games", "queens-gambit" or
    "catalan-opening") or is empty.  A record resolved by a hint or by a
    name pattern is never flagged. *)
Theorem review_only_from_eco {U : UnicodeData} (r : row) :
  cw_needs_review (crosswalk_of r) = u "TRUE" ->
  hint_applies (row_hint r) && truthy (slugify_hint (row_hint r)) = false /\
  first_rule FAMILY_RULES (apply_synonyms (str_lower (row_name r))) = None /\
  row_resolve r = eco_fallback (str_strip (str_upper (row_eco r))) /\
  (row_resolve r = ([], 0.0%float) \/
   snd (row_resolve r) = 0.80%float /\
   In (fst (row_resolve r))
      [u "pirc-modern"; u "open-games"; u "queens-gambit";
       u "catalan-opening"]).
Proof.
  rewrite crosswalk_of_needs_review.
  destruct (row_needs_review r) eqn:E; [intros _|discriminate].
  unfold row_needs_review, review_needed, row_resolve in *.
  destruct (hint_applies (row_hint r)
            && truthy (slugify_hint (row_hint r))) eqn:Eh.
  { apply andb_true_iff in Eh as [E1 E2].
    rewrite resolve_hint in E by assumption. cbn [fst snd] in E.
    rewrite E2 in E. discriminate E. }
  split; [reflexivity|]. rewrite resolve_no_hint in * by assumption.
  destruct (canonical_family_cases (row_name r) (row_eco r))
    as [(fam & Hf & Ec)|[Hn Ec]]; rewrite Ec in *.
  { cbn [fst snd] in E. apply first_rule_in in Hf as [p Hp].
    pose proof family_rules_named as HF. rewrite Forall_forall in HF.
    pose proof (HF (p, fam) (proj2 (list_elem_of_In _ _) Hp)) as Ht.
    cbn [snd] in Ht. rewrite Ht in E. discriminate E. }
  split; [exact Hn|]. split; [reflexivity|].
  destruct (eco_fallback_conf (str_strip (str_upper (row_eco r))))
    as [E0|[Ht _]].
  - now left.
  - right. rewrite Ht in E. cbn [negb orb] in E.
    destruct (eco_fallback_low_bands _ Ht E). now split.
Qed.

Lemma review_only_from_eco_witness :
  cw_needs_review (@crosswalk_of BasicLatin row_b06) = u "TRUE" /\
  @row_resolve BasicLatin row_b06 = (u "pirc-modern", 0.80%float).
Proof.
  assert (H : cw_needs_review (@crosswalk_of BasicLatin row_b06) = u "TRUE")
    by now vm_compute.
  split; [exact H|].
  rewrite (proj1 (proj2 (proj2 (@review_only_from_eco BasicLatin row_b06 H)))).
  now vm_compute.
Defined.

(** ** Letter case *)

Lemma lower_upper_lower s :
  map basic_lower (map basic_upper s) = map basic_lower s.
Proof.
  rewrite map_map. apply map_ext. intros c.
  unfold basic_lower, basic_upper, in_range.
  change (ch "A") with 65. change (ch "Z") with 90.
  change (ch "a") with 97. change (ch "z") with 122.
  destruct (N.leb_spec 97 c), (N.leb_spec c 122); cbn [andb].
  - destruct (N.leb_spec 65 (c - 32)), (N.leb_spec (c - 32) 90);
      cbn [andb]; try lia.
    destruct (N.leb_spec 65 c), (N.leb_spec c 90); cbn [andb]; lia.
  - reflexivity.
  - reflexivity.
  - reflexivity.
Qed.

Lemma upper_lower_upper s :
  map basic_upper (map basic_lower s) = map basic_upper s.
Proof.
  rewrite map_map. apply map_ext. intros c.
  unfold basic_lower, basic_upper, in_range.
  change (ch "A") with 65. change (ch "Z") with 90.
  change (ch "a") with 97. change (ch "z") with 122.
  destruct (N.leb_spec 65 c), (N.leb_spec c 90); cbn [andb].
  - destruct (N.leb_spec 97 (c + 32)), (N.leb_spec (c + 32) 122);
      cbn [andb]; try lia.
    destruct (N.leb_spec 97 c), (N.leb_spec c 122); cbn [andb]; lia.
  - reflexivity.
  - reflexivity.
  - reflexivity.
Qed.

(** X8: on ASCII text the classifier does not see letter case: a name
    and its upper-cased spelling, an eco_code and its lower-cased
    spelling, get the same family and confidence. *)
Theorem canonical_family_ignores_case {U : UnicodeData}
    {HU : UnicodeBasic U} (name eco : pystr) :
  forallb basic name = true -> forallb basic eco = true ->
  canonical_family (str_upper name) (str_lower eco)
  = canonical_family name eco.
Proof.
  intros Hn He.
  rewrite (upper_basic name Hn), (lower_basic eco He).
  assert (Hn' : forallb basic (map basic_upper name) = true).
  { apply basic_forallb, basic_upper_keeps, basic_forallb, Hn. }
  assert (He' : forallb basic (map basic_lower eco) = true).
  { apply basic_forallb, basic_lower_keeps, basic_forallb, He. }
  rewrite (canonical_family_basic _ _ Hn' He').
  rewrite (canonical_family_basic _ _ Hn He).
  unfold canonical_family. cbn [str_lower str_upper BasicLatin].
  now rewrite lower_upper_lower, upper_lower_upper.
Qed.

Lemma canonical_family_ignores_case_witness :
  UnicodeBasic BasicLatin /\
  @canonical_family BasicLatin (u "RUY LOPEZ") (u "c60")
  = @canonical_family BasicLatin (u "Ruy Lopez") (u "C60").
Proof.
  split; [exact BasicLatin_basic|].
  exact (@canonical_family_ignores_case BasicLatin BasicLatin_basic
           (u "Ruy Lopez") (u "C60") eq_refl eq_refl).
Defined.

(** ** The ECO bands *)

Section MatchTests.
Context {U : UnicodeData}.

Lemma matches_at_alt r1 r2 p :
  matches_at (r1 ||| r2)%re p = matches_at r1 p || matches_at r2 p.
Proof. unfold matches_at. cbn [exec]. destruct (exec r1 p); reflexivity. Qed.

Lemma matches_at_lit_cat l r p :
  matches_at (Lit l ~~ r)%re p
  = match lit_match l p with
    | Some q => matches_at r q
    | None => false
    end.
Proof.
  unfold matches_at. cbn [exec].
  destruct (lit_match l p); cbn [flat_map]; [|reflexivity].
  now rewrite app_nil_r.
Qed.

Lemma matches_at_in items prev s :
  matches_at (In_ items) (prev, s)
  = match s with c :: _ => set_has items c | [] => false end.
Proof.
  unfold matches_at. cbn [exec]. destruct s as [|c t]; [reflexivity|].
  rewrite one_char_cons. now destruct (set_has items c).
Qed.

Lemma matches_at_in_cat items r prev s :
  matches_at (In_ items ~~ r)%re (prev, s)
  = match s with
    | c :: t => set_has items c && matches_at r (Some c, t)
    | [] => false
    end.
Proof.
  unfold matches_at. cbn [exec]. destruct s as [|c t]; [reflexivity|].
  rewrite one_char_cons.
  destruct (set_has items c); cbn [flat_map andb]; [|reflexivity].
  now rewrite app_nil_r.
Qed.

Lemma filter_count {A} (f : A -> bool) l :
  length (List.filter f l)
  = list_sum (map (fun x => if f x then 1%nat else 0%nat) l).
Proof.
  induction l as [|x l IH]; cbn [List.filter map list_sum fold_right]; auto.
  destruct (f x); cbn [length]; rewrite IH; reflexivity.
Qed.

Lemma filter_permutation {A} (f : A -> bool) l l' :
  Permutation l l' -> Permutation (List.filter f l) (List.filter f l').
Proof.
  induction 1 as [|x l l' _ IH|x y l|l l' l'' _ IH1 _ IH2];
    cbn [List.filter].
  - constructor.
  - destruct (f x); [now constructor|exact IH].
  - destruct (f x), (f y); try reflexivity. constructor.
  - now transitivity (List.filter f l').
Qed.

Lemma first_band_filter bands eco :
  first_band bands eco
  = match List.filter (fun band => re_match (fst band) eco) bands with
    | [] => ([], 0.0%float)
    | band :: _ => snd band
    end.
Proof.
  induction bands as [|[pattern result] bands IH];
    cbn [first_band List.filter fst]; auto.
  now destruct (re_match pattern eco).
Qed.

End MatchTests.

Ltac closed_tests :=
  repeat match goal with
         | |- context [N.eqb ?x ?y] =>
             let v := eval vm_compute in (N.eqb x y) in
             match v with
             | true => change (N.eqb x y) with true
             | false => change (N.eqb x y) with false
             end
         end.

Ltac split_on v :=
  repeat match goal with
         | |- context [(?x =? v)%N] =>
             destruct (N.eqb_spec x v); [subst v|]; closed_tests
         end.

Ltac band_tests :=
  repeat (progress (rewrite ?matches_at_in_cat, ?matches_at_in;
                    cbn [set_has existsb item_has andb orb]));
  rewrite ?andb_false_r, ?orb_false_r.

Ltac split_ranges :=
  unfold in_range;
  repeat match goal with
         | |- context [(?x <=? ?y)%N] => destruct (N.leb_spec x y)
         | |- context [(?x =? ?y)%N] => destruct (N.eqb_spec x y)
         | |- context [isdecimal ?c] => destruct (isdecimal c)
         end.

Lemma eco_bands_one_match {U : UnicodeData} eco :
  (length (List.filter (fun band => re_match (fst band) eco) ECO_BANDS)
   <= 1)%nat.
Proof.
  rewrite filter_count.
  let x := eval vm_compute in ECO_BANDS in change ECO_BANDS with x.
  cbn [map list_sum fst fold_right]. unfold re_match.
  rewrite !matches_at_alt, !matches_at_lit_cat.
  destruct eco as [|a [|b [|c rest]]]; cbn [lit_match snd].
  - cbn. lia.
  - split_on a; cbn; lia.
  - split_on a; split_on b; band_tests; cbn [andb orb Nat.add]; try lia.
  - split_on a; split_on b; band_tests; cbn [andb orb Nat.add]; try lia;
      split_ranges; cbn [andb orb Nat.add]; lia.
Qed.

(** X9: no eco_code matches two bands of the ECO table, so the order of
    the bands plays no part: looked up first-match-wins in any
    rearrangement of the table, a code gets the result the if-chain of the
    script gives. *)
Theorem eco_band_order_irrelevant {U : UnicodeData}
    (bands : list (regex * (pystr * float))) (eco : pystr) :
  Permutation ECO_BANDS bands ->
  first_band bands eco = eco_fallback eco.
Proof.
  intros HP. rewrite eco_fallback_table, !first_band_filter.
  pose proof (eco_bands_one_match eco) as H1.
  pose proof (filter_permutation
                (fun band => re_match (fst band) eco) _ _ HP) as HF.
  destruct (List.filter _ ECO_BANDS) as [|x [|y l]].
  - apply Permutation_nil in HF. now rewrite HF.
  - apply Permutation_length_1_inv in HF. now rewrite HF.
  - simpl in H1. lia.
Qed.

Lemma eco_band_order_irrelevant_witness :
  @first_band BasicLatin (rev ECO_BANDS) (u "D45")
  = (u "queens-gambit", 0.85%float).
Proof.
  rewrite (@eco_band_order_irrelevant BasicLatin (rev ECO_BANDS) (u "D45")
             (Permutation_rev ECO_BANDS)).
  now vm_compute.
Defined.

Ltac open_bands :=
  rewrite ?eco_fallback_table;
  let x := eval vm_compute in ECO_BANDS in change ECO_BANDS with x;
  cbn [first_band]; unfold re_match;
  rewrite ?matches_at_alt, ?matches_at_lit_cat; cbn [lit_match snd].

Lemma digit_decimal {U : UnicodeData} {HU : UnicodeBasic U} d :
  in_range (ch "0") (ch "9") d = true -> isdecimal d = true.
Proof.
  intros H. rewrite isdecimal_basic; [exact H|].
  unfold basic. apply orb_true_iff. left. apply N.ltb_lt.
  unfold in_range in H. apply andb_true_iff in H as [_ H].
  apply N.leb_le in H. change (ch "9") with 57 in H. lia.
Qed.

(** X10: which eco_codes the ECO tier resolves.  A code of fewer than
    three characters (the empty code among them) or not beginning with
    A to E resolves to nothing; so does every code in C2x-C9x, A0x-A4x,
    A6x, E1x, E4x, E5x and E7x-E9x; every code made of B or D and two
    ASCII digits (followed by anything) resolves to a family. *)
Theorem eco_coverage {U : UnicodeData} {HU : UnicodeBasic U}
    (eco : pystr) :
  ((length eco < 3)%nat -> eco_fallback eco = ([], 0.0%float)) /\
  (forall a rest, eco = a :: rest ->
     in_range (ch "A") (ch "E") a = false ->
     eco_fallback eco = ([], 0.0%float)) /\
  (forall a d1 rest, eco = a :: d1 :: rest ->
     (a = ch "C" /\ in_range (ch "2") (ch "9") d1 = true) \/
     (a = ch "A" /\ (in_range (ch "0") (ch "4") d1 = true \/ d1 = ch "6")) \/
     (a = ch "E" /\ (d1 = ch "1" \/ in_range (ch "4") (ch "5") d1 = true \/
                     in_range (ch "7") (ch "9") d1 = true)) ->
     eco_fallback eco = ([], 0.0%float)) /\
  (forall a d1 d2 rest, eco = a :: d1 :: d2 :: rest ->
     a = ch "B" \/ a = ch "D" ->
     in_range (ch "0") (ch "9") d1 = true ->
     in_range (ch "0") (ch "9") d2 = true ->
     truthy (fst (eco_fallback eco)) = true).
Proof.
  split; [|split; [|split]].
  - intros Hl. destruct eco as [|a [|b [|c rest]]];
      [| | |simpl in Hl; lia]; open_bands.
    + reflexivity.
    + split_on a; reflexivity.
    + split_on a; split_on b; band_tests; reflexivity.
  - intros a rest -> Ha. open_bands.
    unfold in_range in Ha. change (ch "A") with 65 in Ha.
    change (ch "E") with 69 in Ha.
    destruct rest as [|b rest]; cbn [lit_match snd];
      split_on a; try reflexivity; vm_compute in Ha; discriminate Ha.
  - intros a d1 rest -> H. open_bands.
    change (ch "C") with 67 in H. change (ch "A") with 65 in H.
    change (ch "E") with 69 in H. change (ch "0") with 48 in H.
    change (ch "1") with 49 in H. change (ch "2") with 50 in H.
    change (ch "4") with 52 in H. change (ch "5") with 53 in H.
    change (ch "6") with 54 in H. change (ch "7") with 55 in H.
    change (ch "9") with 57 in H. unfold in_range in H.
    destruct H as [[-> H]|[[-> H]|[-> H]]]; closed_tests;
      cbn [lit_match snd]; split_on d1; try reflexivity;
      exfalso; revert H; vm_compute; intuition discriminate.
  - intros a d1 d2 rest -> Ha H1 H2.
    pose proof (digit_decimal d2 H2) as Hd. open_bands.
    change (ch "B") with 66 in Ha. change (ch "D") with 68 in Ha.
    change (ch "0") with 48 in H1, H2. change (ch "9") with 57 in H1, H2.
    unfold in_range in H1, H2.
    apply andb_true_iff in H1 as [H1 H1']. apply N.leb_le in H1, H1'.
    apply andb_true_iff in H2 as [H2 H2']. apply N.leb_le in H2, H2'.
    destruct Ha as [-> | ->]; closed_tests; cbn [lit_match snd];
      split_on d1; band_tests; rewrite ?Hd; cbn [andb orb fst];
      try reflexivity;
      split_ranges; cbn [andb orb fst]; try reflexivity; lia.
Qed.

Lemma eco_coverage_witness :
  UnicodeBasic BasicLatin /\
  @eco_fallback BasicLatin [] = ([], 0.0%float) /\
  truthy (fst (@eco_fallback BasicLatin (u "D99"))) = true.
Proof.
  split; [exact BasicLatin_basic|].
  destruct (@eco_coverage BasicLatin BasicLatin_basic []) as (H1 & _).
  destruct (@eco_coverage BasicLatin BasicLatin_basic (u "D99"))
    as (_ & _ & _ & H4).
  split.
  - apply H1. simpl. lia.
  - apply (H4 (ch "D") (ch "9") (ch "9") []); auto.
Defined.

(** ** Rules of the list that never decide *)

Section DeadRules.
Context {U : UnicodeData}.

Lemma first_rule_app rules1 rules2 n :
  first_rule (rules1 ++ rules2) n
  = match first_rule rules1 n with
    | Some fam => Some fam
    | None => first_rule rules2 n
    end.
Proof.
  induction rules1 as [|[p f] rules1 IH]; cbn [app first_rule]; auto.
  now destruct (re_search p n).
Qed.

Lemma search_from_alt r1 r2 s : forall prev,
  search_from (r1 ||| r2)%re prev s
  = search_from r1 prev s || search_from r2 prev s.
Proof.
  induction s as [|c s IH]; intros prev; cbn [search_from].
  - rewrite matches_at_alt. now rewrite !orb_false_r.
  - rewrite matches_at_alt, IH.
    destruct (matches_at r1 _), (matches_at r2 _),
      (search_from r1 _ _), (search_from r2 _ _); reflexivity.
Qed.

Lemma matches_at_In r p :
  matches_at r p = true <-> exists q, In q (exec r p).
Proof.
  unfold matches_at. destruct (exec r p) as [|q qs]; split.
  - discriminate.
  - intros [q []].
  - intros _. exists q. now left.
  - reflexivity.
Qed.

(** Where a greedy loop of single characters can stop: after some of the
    characters it accepts. *)
Lemma star_loop_one_char ok : forall n p q,
  In q (star_loop (one_char ok) n p) ->
  exists ws, snd p = ws ++ snd q /\ fst q = prev_after (fst p) ws /\
             Forall (fun c => ok c = true) ws.
Proof.
  induction n as [|n IH]; intros [prev s] q.
  - intros [<-|[]]. now exists [].
  - rewrite star_loop_S, in_app_iff, in_flat_map.
    intros [(m & Hm & Hq)|[<-|[]]]; [|now exists []].
    destruct s as [|c t]; [destruct Hm|]. rewrite one_char_cons in Hm.
    destruct (ok c) eqn:Ec; [|destruct Hm]. destruct Hm as [<-|[]].
    destruct (_ <? _)%nat; [|destruct Hq].
    apply IH in Hq as (ws & Hs & Hf & Hw). cbn [fst snd] in *.
    exists (c :: ws). repeat split.
    + cbn [app]. congruence.
    + now rewrite prev_after_cons.
    + now constructor.
Qed.

Lemma plus_space_ends_on_space p q :
  In q (exec (Plus sp) p) ->
  exists ws c, snd p = ws ++ snd q /\ fst q = Some c /\ last ws = Some c /\
               isspace c = true.
Proof.
  unfold sp. cbn [exec]. rewrite in_flat_map. intros (m & Hm & Hq).
  destruct p as [prev [|c t]]; [destruct Hm|].
  change (exec (In_ [CSpace])) with (one_char (set_has [CSpace])) in Hq.
  rewrite one_char_cons in Hm.
  destruct (set_has [CSpace] c) eqn:Ec; [|destruct Hm].
  destruct Hm as [<-|[]].
  apply star_loop_one_char in Hq as (ws & Hs & Hf & Hw).
  cbn [fst snd] in *.
  assert (Hall : Forall (fun d => set_has [CSpace] d = true) (c :: ws))
    by now constructor.
  destruct (last (c :: ws)) as [d|] eqn:El.
  - exists (c :: ws), d. repeat split.
    + cbn [app]. congruence.
    + rewrite Hf. unfold prev_after. rewrite last_cons in El.
      destruct (last ws); congruence.
    + exact El.
    + rewrite Forall_forall in Hall.
      assert (Hd : d ∈ c :: ws) by (apply last_Some_elem_of; exact El).
      apply Hall in Hd. cbn in Hd. now rewrite orb_false_r in Hd.
  - rewrite last_cons in El. destruct (last ws); discriminate.
Qed.

(** A two-word pattern [\bw1\s+w2\b] is found only where [\bw2\b] is. *)
Lemma two_words_imply_second w1 c w2 d n :
  (forall x, isspace x = true -> isword x = false) ->
  isword c = true -> last (c :: w2) = Some d -> isword d = true ->
  re_search (Bnd ~~ Lit w1 ~~ Plus sp ~~ Lit (c :: w2) ~~ Bnd)%re n = true ->
  re_search (Bnd ~~ Lit (c :: w2) ~~ Bnd)%re n = true.
Proof.
  intros Hsp Hc Hl Hd H.
  apply (word_pattern_search c w2 d n Hc Hl Hd).
  apply search_from_spec in H as (pre & rest & -> & H).
  apply matches_at_In in H as [q H]. cbn [exec] in H.
  apply in_flat_map in H as (q0 & H0 & H). 
  destruct (at_boundary _); [|destruct H0]. destruct H0 as [<-|[]].
  apply in_flat_map in H as (q1 & H1 & H).
  destruct (lit_match w1 _) as [q1'|] eqn:E1; [|destruct H1].
  destruct H1 as [<-|[]].
  apply lit_match_spec in E1 as (r1 & Er & ->). cbn [fst snd] in Er.
  apply in_flat_map in H as (q2 & H2 & H).
  apply plus_space_ends_on_space in H2 as (ws & x & Hs & Hf & Hlw & Hx).
  cbn [fst snd] in Hs.
  apply in_flat_map in H as (q3 & H3 & H).
  destruct (lit_match (c :: w2) q2) as [q3'|] eqn:E3; [|destruct H3].
  destruct H3 as [<-|[]].
  apply lit_match_spec in E3 as (post & Ep & ->).
  destruct (at_boundary _) eqn:Eb; [|destruct H].
  unfold at_boundary, prev_after in Eb. cbn [fst snd] in Eb.
  rewrite Hl in Eb. cbn [isword_at] in Eb. rewrite Hd in Eb.
  exists (pre ++ w1 ++ ws), post. repeat split.
  - rewrite Er, Hs, Ep. now rewrite <- !app_assoc.
  - rewrite !app_assoc, last_app, Hlw. cbn [isword_at]. now apply Hsp.
  - now destruct (isword_at (head post)).
Qed.

End DeadRules.

(** X11: three rules of the ordered list never decide a name: the
    patterns "old benoni" and "modern benoni" are found only where the
    earlier pattern "benoni" is, and the last rule repeats a pattern of
    the fourth.  The list without them classifies every text alike.
    (Whitespace characters are assumed not to be word characters.) *)
Theorem dead_rules {U : UnicodeData} {HU : UnicodeBasic U} (n : pystr) :
  (forall x, isspace x = true -> isword x = false) ->
  first_rule FAMILY_RULES n = first_rule FAMILY_RULES_LIVE n.
Proof.
  intros Hsp.
  assert (Hb : isword (ch "b") = true) by now rewrite isword_basic.
  assert (Hi : isword (ch "i") = true) by now rewrite isword_basic.
  set (A := firstn 16 FAMILY_RULES).
  set (B := skipn 18 (firstn 37 FAMILY_RULES)).
  change FAMILY_RULES_LIVE with (A ++ B).
  change FAMILY_RULES
    with (A ++ [(Bnd ~~ lit "old" ~~ Plus sp ~~ lit "benoni" ~~ Bnd,
                 u "benoni-defense")%re;
                (RE_MODERN_BENONI, u "benoni-defense")]
            ++ B ++ [((Bnd ~~ lit "scandinavian" ~~ Bnd)%re,
                      u "scandinavian-defense")]).
  rewrite !first_rule_app.
  destruct (first_rule A n) as [fam|] eqn:EA; [reflexivity|].
  assert (Hbenoni : re_search (Bnd ~~ lit "benoni" ~~ Bnd)%re n = false).
  { apply (first_rule_none A n _ (u "benoni-defense") EA).
    unfold A, FAMILY_RULES. cbn [firstn]. do 15 right. now left. }
  assert (Hscand : re_search (Bnd ~~ lit "scandinavian" ~~ Bnd)%re n
                   = false).
  { pose proof (first_rule_none A n
                  (Bnd ~~ lit "scandinavian" ~~ Bnd
                   ||| Bnd ~~ lit "center" ~~ Plus sp ~~ lit "counter"
                       ~~ Bnd)%re
                  (u "scandinavian-defense") EA) as H.
    unfold re_search in *. rewrite search_from_alt in H.
    apply orb_false_iff in H; [tauto|].
    unfold A, FAMILY_RULES. cbn [firstn]. do 3 right. now left. }
  cbn [first_rule].
  destruct (re_search (Bnd ~~ lit "old" ~~ Plus sp ~~ lit "benoni" ~~ Bnd) n)
    eqn:E1.
  { apply (two_words_imply_second (u "old") (ch "b") (u "enoni") (ch "i") n
             Hsp Hb eq_refl Hi) in E1.
    discriminate (eq_trans (eq_sym E1) Hbenoni). }
  destruct (re_search RE_MODERN_BENONI n) eqn:E2.
  { apply (two_words_imply_second (u "modern") (ch "b") (u "enoni") (ch "i")
             n Hsp Hb eq_refl Hi) in E2.
    discriminate (eq_trans (eq_sym E2) Hbenoni). }
  destruct (first_rule B n); [reflexivity|].
  now rewrite Hscand.
Qed.

Lemma space_is_not_word_basic x :
  @isspace BasicLatin x = true -> @isword BasicLatin x = false.
Proof.
  unfold isword. cbn [isspace isalnum BasicLatin].
  unfold basic_isspace, basic_isalnum, basic_isdecimal, in_range.
  change (ch "a") with 97. change (ch "z") with 122.
  change (ch "A") with 65. change (ch "Z") with 90.
  change (ch "0") with 48. change (ch "9") with 57.
  change (ch "_") with 95.
  intros H.
  repeat match goal with
         | |- context [(?a <=? ?b)%N] => destruct (N.leb_spec a b)
         | |- context [(?a =? ?b)%N] => destruct (N.eqb_spec a b)
         | H : context [(?a <=? ?b)%N] |- _ => destruct (N.leb_spec a b)
         end; cbn [andb orb] in *; try reflexivity; try discriminate; lia.
Qed.

Lemma dead_rules_witness :
  UnicodeBasic BasicLatin /\
  @first_rule BasicLatin FAMILY_RULES_LIVE (u "old benoni")
  = Some (u "benoni-defense").
Proof.
  split; [exact BasicLatin_basic|].
  rewrite <- (@dead_rules BasicLatin BasicLatin_basic (u "old benoni")
                space_is_not_word_basic).
  now vm_compute.
Defined.

(** ** The order of the family table *)

Lemma str_leb_total a : forall b, str_leb a b = true \/ str_leb b a = true.
Proof.
  induction a as [|c a IH]; intros [|d b]; cbn [str_leb]; auto.
  destruct (N.ltb_spec c d); [now left|].
  destruct (N.ltb_spec d c); [now right|].
  assert (c = d) by lia. subst d. rewrite N.eqb_refl. cbn [orb andb].
  apply IH.
Qed.

Lemma str_leb_trans a : forall b c,
  str_leb a b = true -> str_leb b c = true -> str_leb a c = true.
Proof.
  induction a as [|x a IH]; intros [|y b] [|z c]; cbn [str_leb];
    try discriminate; auto.
  intros H1 H2.
  apply orb_true_iff in H1 as [H1|[H1 H1']%andb_true_iff];
    apply orb_true_iff in H2 as [H2|[H2 H2']%andb_true_iff];
    rewrite ?N.ltb_lt, ?N.eqb_eq in *; apply orb_true_iff.
  - left. apply N.ltb_lt. lia.
  - left. apply N.ltb_lt. lia.
  - left. apply N.ltb_lt. lia.
  - right. apply andb_true_iff. split; [apply N.eqb_eq; lia|]. eauto.
Qed.

#[local] Instance str_le_total : Total str_le.
Proof. intros a b. apply str_leb_total. Qed.

#[local] Instance str_le_trans : Transitive str_le.
Proof. intros a b c. apply str_leb_trans. Qed.



(** ** The written confidence *)

(** X13: the two-decimal text written in the confidence column loses
    nothing: two records with the same confidence text have the same
    confidence. *)
Theorem confidence_text_faithful {U : UnicodeData} (r r' : row) :
  cw_confidence (crosswalk_of r) = cw_confidence (crosswalk_of r') ->
  snd (row_resolve r) = snd (row_resolve r').
Proof.
  rewrite !crosswalk_of_confidence.
  pose proof (row_conf_values r) as H. pose proof (row_conf_values r') as H'.
  simpl in H, H'.
  destruct H as [<-|[<-|[<-|[<-|[<-|[<-|[]]]]]]];
    destruct H' as [<-|[<-|[<-|[<-|[<-|[<-|[]]]]]]];
    intros E; try reflexivity; vm_compute in E; discriminate E.
Qed.

Lemma confidence_text_faithful_witness :
  snd (@row_resolve BasicLatin row_b44)
  = snd (@row_resolve BasicLatin row_hinted).
Proof.
  apply (@confidence_text_faithful BasicLatin row_b44 row_hinted).
  now vm_compute.
Defined.

(** ** The counts add up *)

Section Totals.
Context {U : UnicodeData}.

Lemma total_count_insert (fams : gmap pystr nat) k n :
  fams !! k = None ->
  total_count (<[k := n]> fams) = (n + total_count fams)%nat.
Proof.
  intros H. unfold total_count.
  apply (map_fold_insert_L (fun _ n acc => (n + acc)%nat)); auto.
  intros. lia.
Qed.

Lemma total_count_bump (fams : gmap pystr nat) k :
  total_count (bump k fams) = S (total_count fams).
Proof.
  unfold bump. destruct (fams !! k) as [n|] eqn:E; cbn [default].
  - assert (E1 : total_count fams = (n + total_count (delete k fams))%nat).
    { rewrite <- (insert_delete_id fams k n E) at 1.
      apply total_count_insert, lookup_delete_eq. }
    assert (E2 : total_count (<[k := (n + 1)%nat]> fams)
                 = (n + 1 + total_count (delete k fams))%nat).
    { rewrite <- insert_delete_eq.
      apply total_count_insert, lookup_delete_eq. }
    change (id n) with n. lia.
  - now rewrite total_count_insert.
Qed.

Lemma fold_step_total rows : forall t,
  total_count (families (fold_left step rows t))
  = (total_count (families t)
     + length (filter (fun r => fst (row_resolve r) <> []) rows))%nat.
Proof.
  induction rows as [|r rows IH]; intros t; cbn [fold_left].
  - rewrite filter_nil. simpl. lia.
  - rewrite IH, step_eq. cbn [families].
    destruct (fst (row_resolve r)) as [|c k] eqn:E; cbn [truthy].
    + rewrite filter_cons_False by (rewrite E; congruence). lia.
    + rewrite filter_cons_True by (rewrite E; discriminate).
      rewrite total_count_bump. simpl. lia.
Qed.

(** X14: the family counts add up to the number of input rows that got a
    family key; together with the rows left without a key they account
    for every input row. *)
Theorem family_counts_total (rows : list row) :
  total_count (families (main_loop rows))
  = length (filter (fun r => fst (row_resolve r) <> []) rows) /\
  (total_count (families (main_loop rows))
   + length (filter (fun r => fst (row_resolve r) = []) rows))%nat
  = length rows.
Proof.
  assert (H : total_count (families (main_loop rows))
              = length (filter (fun r => fst (row_resolve r) <> []) rows)).
  { unfold main_loop. rewrite fold_step_total. reflexivity. }
  split; [exact H|]. rewrite H. clear H.
  induction rows as [|r rows IH]; [reflexivity|].
  destruct (decide (fst (row_resolve r) = [])) as [E|E].
  - rewrite filter_cons_False by tauto.
    rewrite filter_cons_True by exact E. simpl. lia.
  - rewrite filter_cons_True by exact E.
    rewrite filter_cons_False by exact E. simpl. lia.
Qed.

End Totals.

(** ** Rows without the columns the script reads *)

(** X15: a row whose name, eco and family-hint columns are all missing or
    blank is not an error: it gets the empty key with confidence 0.00,
    acceptance status "neutral" and no note, is flagged TRUE and so goes
    to the review table, and adds nothing to the family counts. *)
Theorem blank_row_unresolved {U : UnicodeData} {HU : UnicodeBasic U}
    (r : row) (t : tables) :
  row_name r = [] -> row_eco r = [] -> row_hint r = [] ->
  cw_canonical_family_key (crosswalk_of r) = [] /\
  cw_confidence (crosswalk_of r) = u "0.00" /\
  cw_acceptance_status (crosswalk_of r) = u "neutral" /\
  cw_notes (crosswalk_of r) = [] /\
  cw_needs_review (crosswalk_of r) = u "TRUE" /\
  review (step t r) = review t ++ [review_of r] /\
  families (step t r) = families t.
Proof.
  intros Hn He Hh.
  assert (Hr : row_resolve r = ([], 0.0%float)).
  { unfold row_resolve. rewrite Hn, He, Hh.
    rewrite resolve_basic by reflexivity. now vm_compute. }
  assert (Hv : row_needs_review r = true).
  { unfold row_needs_review. now rewrite Hr. }
  rewrite step_eq, crosswalk_of_key, crosswalk_of_confidence,
    crosswalk_of_notes, crosswalk_of_needs_review, Hr, Hv.
  cbn [fst snd truthy review families].
  repeat split; try reflexivity.
  - unfold crosswalk_of. rewrite Hr. cbn [cw_acceptance_status].
    rewrite Hn, acceptance_status_basic by reflexivity. now vm_compute.
  - rewrite Hn, dutch_staunton_notes_basic by reflexivity. now vm_compute.
Qed.

Lemma blank_row_unresolved_witness :
  UnicodeBasic BasicLatin /\
  cw_needs_review (@crosswalk_of BasicLatin ∅) = u "TRUE".
Proof.
  split; [exact BasicLatin_basic|].
  exact (proj1 (proj2 (proj2 (proj2 (proj2
           (@blank_row_unresolved BasicLatin BasicLatin_basic ∅ no_tables
              eq_refl eq_refl eq_refl)))))).
Defined.

(** ** The name before the eco_code *)

(** X16: the eco_code is consulted only when no name pattern matches: a
    name in which some pattern of the list is found gets the family of
    that pattern with confidence 0.99 whatever the eco_code, also when the
    code belongs to the band of another family. *)
Theorem name_before_eco {U : UnicodeData} (name eco eco' : pystr) :
  first_rule FAMILY_RULES (apply_synonyms (str_lower name)) <> None ->
  canonical_family name eco = canonical_family name eco' /\
  snd (canonical_family name eco) = 0.99%float /\
  first_rule FAMILY_RULES (apply_synonyms (str_lower name))
  = Some (fst (canonical_family name eco)).
Proof.
  intros H.
  destruct (canonical_family_cases name eco) as [(fam & Hf & ->)|[Hn _]];
    [|contradiction].
  destruct (canonical_family_cases name eco') as [(fam' & Hf' & ->)|[Hn _]];
    [|contradiction].
  repeat split; [congruence|exact Hf].
Qed.

Lemma name_before_eco_witness :
  @canonical_family BasicLatin (u "French Defense") (u "B44")
  = (u "french-defense", 0.99%float).
Proof.
  assert (H : @first_rule BasicLatin FAMILY_RULES
                (apply_synonyms (@str_lower BasicLatin (u "French Defense")))
              <> None) by (vm_compute; discriminate).
  rewrite (proj1 (@name_before_eco BasicLatin (u "French Defense")
                    (u "B44") [] H)).
  now vm_compute.
Defined.
